(** * A ring-buffer queue (package [queue], file [queue.go])

    Shallow embedding of the Go package and the proofs of its
    specification.  The Go type [ringBufferQueue[Element]] is a record,
    its pointer-receiver methods are computations of a state monad over
    that record whose second effect is the run-time panic, and Go's
    [int] is the 64-bit two's complement integer: every arithmetic
    operation of the source is written with its wrap-around. *)

From Stdlib Require Import ZArith Lia.
From stdpp Require Import base numbers list.

Local Open Scope Z_scope.

(** ** Go's [int] on a 64-bit platform *)

Module GoInt.

Definition max_int : Z := Eval cbv in 2 ^ 63 - 1.
Definition min_int : Z := Eval cbv in - 2 ^ 63.
Definition modulus : Z := Eval cbv in 2 ^ 64.

(** The value of type [int] that the mathematical integer [z] wraps to. *)
Definition wrap (z : Z) : Z := (z - min_int) mod modulus + min_int.

Definition in_range (z : Z) : Prop := min_int <= z <= max_int.

Definition add (a b : Z) : Z := wrap (a + b).
Definition sub (a b : Z) : Z := wrap (a - b).
Definition mul (a b : Z) : Z := wrap (a * b).

End GoInt.

(** ** Run-time panics and the result of a Go computation *)

Inductive panic : Set :=
  | MakeSliceLenOutOfRange   (* make([]T, n) with n < 0 *)
  | IndexOutOfRange          (* s[i] with i outside [0, len(s)) *)
  | SliceBoundsOutOfRange    (* s[lo:hi] outside 0 <= lo <= hi <= cap(s) *)
  | IntegerDivideByZero.     (* a % 0 *)

Inductive result (A : Type) : Type :=
  | Ok (a : A)
  | Panic (p : panic).
Arguments Ok {A} a.
Arguments Panic {A} p.

(** The two error values of the package. *)
Inductive error : Set :=
  | ErrQueueEmpty
  | ErrQueueFull.

(** Go's [%]: truncated remainder, panics on a zero divisor. *)
Definition int_rem (a b : Z) : result Z :=
  if b =? 0 then Panic IntegerDivideByZero else Ok (Z.rem a b).

Section RingBufferQueue.

(** The element type of the queue and its zero value ([var item Element]). *)
Variable Element : Type.
Variable zero : Element.

(** *** Slices
    Every slice of the program comes from [make([]Element, n)], so its
    length and its capacity agree; a slice is the list of its elements.
    [make_slice] is [make] without the runtime's check of the size in
    bytes, which is [make] as it is for an element type of size 0 (such
    as [struct{}]): it panics on a negative length and on nothing else.
    [make_slice_at] below has the check, for an element type of any
    size. *)

Definition cap (s : list Element) : Z := Z.of_nat (List.length s).

(** [make([]Element, n)] *)
Definition make_slice (n : Z) : result (list Element) :=
  if n <? 0 then Panic MakeSliceLenOutOfRange
  else Ok (replicate (Z.to_nat n) zero).

(** [s[i]] as an expression *)
Definition slice_get (s : list Element) (i : Z) : result Element :=
  if (0 <=? i) && (i <? cap s) then
    match s !! Z.to_nat i with
    | Some x => Ok x
    | None => Panic IndexOutOfRange
    end
  else Panic IndexOutOfRange.

(** [s[i] = x] *)
Definition slice_set (s : list Element) (i : Z) (x : Element)
  : result (list Element) :=
  if (0 <=? i) && (i <? cap s) then Ok (<[Z.to_nat i := x]> s)
  else Panic IndexOutOfRange.

(** [s[lo:hi]] *)
Definition slice_range (s : list Element) (lo hi : Z)
  : result (list Element) :=
  if (0 <=? lo) && (lo <=? hi) && (hi <=? cap s) then
    Ok (take (Z.to_nat (hi - lo)) (drop (Z.to_nat lo) s))
  else Panic SliceBoundsOutOfRange.

(** [copy(dst, src)]: the first [min(len(dst), len(src))] elements of
    [src] overwrite the start of [dst]; the count is returned. *)
Definition copy (dst src : list Element) : list Element * Z :=
  let n := Z.min (cap dst) (cap src) in
  (take (Z.to_nat n) src ++ drop (Z.to_nat n) dst, n).

Arguments copy : simpl never.

(** *** The queue *)

Record ringBufferQueue : Type := mkQueue {
  items : list Element;
  front : Z;
  length : Z;
  bounded : bool
}.

Definition defaultRingBufferQueueCapacity : Z := 2.

Definition newBoundedRingBufferQueue (capacity : Z) : result ringBufferQueue :=
  let capacity :=
    if capacity =? 0 then defaultRingBufferQueueCapacity else capacity in
  match make_slice capacity with
  | Ok s => Ok {| items := s; front := 0; length := 0; bounded := true |}
  | Panic p => Panic p
  end.

Definition newUnboundedRingBufferQueue (initialCapacity : Z)
  : result ringBufferQueue :=
  let initialCapacity :=
    if initialCapacity =? 0 then defaultRingBufferQueueCapacity
    else initialCapacity in
  match make_slice initialCapacity with
  | Ok s => Ok {| items := s; front := 0; length := 0; bounded := false |}
  | Panic p => Panic p
  end.

Definition NewBoundedQueue (capacity : Z) : result ringBufferQueue :=
  newBoundedRingBufferQueue capacity.

Definition NewUnboundedQueue (initialCapacity : Z) : result ringBufferQueue :=
  newUnboundedRingBufferQueue initialCapacity.

(** *** Construction with the runtime's check of the size
    [make([]Element, n)] is a call of [runtime.makeslice], which panics
    with "makeslice: len out of range" before it allocates anything: when
    [n] is negative, and when the size of the slice in bytes, the size of
    an element times [n], overflows [uintptr] or exceeds [maxAlloc]
    ([2^48] on the 64-bit platforms).  The product is taken in [Z], where
    one that overflows [uintptr] exceeds [maxAlloc] as well.  The
    constructors named [_at] are the constructors of the package at an
    element type of [elem_size] bytes; at size 0 the check never fails
    and they are [newBoundedRingBufferQueue] and
    [newUnboundedRingBufferQueue] above. *)

Definition maxAlloc : Z := Eval cbv in 2 ^ 48.

Definition make_slice_at (elem_size n : Z) : result (list Element) :=
  if (n <? 0) || (maxAlloc <? elem_size * n)
  then Panic MakeSliceLenOutOfRange
  else Ok (replicate (Z.to_nat n) zero).

Definition newBoundedRingBufferQueue_at (elem_size capacity : Z)
  : result ringBufferQueue :=
  let capacity :=
    if capacity =? 0 then defaultRingBufferQueueCapacity else capacity in
  match make_slice_at elem_size capacity with
  | Ok s => Ok {| items := s; front := 0; length := 0; bounded := true |}
  | Panic p => Panic p
  end.

Definition newUnboundedRingBufferQueue_at (elem_size initialCapacity : Z)
  : result ringBufferQueue :=
  let initialCapacity :=
    if initialCapacity =? 0 then defaultRingBufferQueueCapacity
    else initialCapacity in
  match make_slice_at elem_size initialCapacity with
  | Ok s => Ok {| items := s; front := 0; length := 0; bounded := false |}
  | Panic p => Panic p
  end.

Definition NewBoundedQueue_at (elem_size capacity : Z)
  : result ringBufferQueue :=
  newBoundedRingBufferQueue_at elem_size capacity.

Definition NewUnboundedQueue_at (elem_size initialCapacity : Z)
  : result ringBufferQueue :=
  newUnboundedRingBufferQueue_at elem_size initialCapacity.

(** *** Methods: state passing over the receiver, with panics *)

Definition M (A : Type) : Type := ringBufferQueue -> result (A * ringBufferQueue).

Definition ret {A} (a : A) : M A := fun q => Ok (a, q).

Definition bind {A B} (m : M A) (k : A -> M B) : M B :=
  fun q => match m q with
           | Ok (a, q') => k a q'
           | Panic p => Panic p
           end.

Definition get : M ringBufferQueue := fun q => Ok (q, q).
Definition put (q' : ringBufferQueue) : M unit := fun _ => Ok (tt, q').

Definition lift {A} (r : result A) : M A :=
  fun q => match r with
           | Ok a => Ok (a, q)
           | Panic p => Panic p
           end.

Notation "'let*' x ':=' m 'in' k" := (bind m (fun x => k))
  (at level 10, x pattern, m at level 100, k at level 200).
Notation "m ';;' k" := (bind m (fun _ => k))
  (at level 100, k at level 200, right associativity).

Definition expand : M unit :=
  let* q := get in
  if length q <? cap (items q) then ret tt
  else
    let newCapacity := GoInt.mul (cap (items q)) 2 in
    let* newItems := lift (make_slice newCapacity) in
    let* tail := lift (slice_range (items q) (front q) (length q)) in
    let '(newItems, copyCount) := copy newItems tail in
    let* newItems :=
      (if front q >? 0 then
         (* copy(newItems[copyCount:], q.items[0:q.front]) writes through
            the sub-slice into newItems from index copyCount on *)
         let* dst := lift (slice_range newItems copyCount (cap newItems)) in
         let* head := lift (slice_range (items q) 0 (front q)) in
         ret (take (Z.to_nat copyCount) newItems ++ fst (copy dst head))
       else ret newItems) in
    put {| items := newItems; front := 0;
           length := length q; bounded := bounded q |}.

Definition Push (item : Element) : M (option error) :=
  let* q := get in
  (* the overflow branch; [Some e] is its early [return e] *)
  let* returned :=
    (if length q =? cap (items q) then
       if bounded q then ret (Some ErrQueueFull)
       else expand;; ret None
     else ret None) in
  match returned with
  | Some e => ret (Some e)
  | None =>
      let* q := get in
      let* back :=
        lift (int_rem (GoInt.add (front q) (length q)) (cap (items q))) in
      let* items' := lift (slice_set (items q) back item) in
      put {| items := items'; front := front q;
             length := GoInt.add (length q) 1; bounded := bounded q |};;
      ret None
  end.

Definition Peek : M (Element * option error) :=
  let* q := get in
  if length q =? 0 then ret (zero, Some ErrQueueEmpty)
  else
    let* item := lift (slice_get (items q) (front q)) in
    ret (item, None).

Definition Pop : M (Element * option error) :=
  let* (item, err) := Peek in
  match err with
  | Some _ => ret (item, err)
  | None =>
      let* q := get in
      let* front' := lift (int_rem (GoInt.add (front q) 1) (cap (items q))) in
      put {| items := items q; front := front';
             length := GoInt.sub (length q) 1; bounded := bounded q |};;
      ret (item, None)
  end.

Definition Length : M Z :=
  let* q := get in ret (length q).

(** *** Programs over the public interface
    A client of the package drives one queue through a sequence of
    calls; [run] performs them in order and records what each call
    returned. *)

Inductive op : Type :=
  | OpPush (item : Element)
  | OpPop
  | OpPeek
  | OpLength.

Inductive outcome : Type :=
  | RPush (err : option error)
  | RPop (item : Element) (err : option error)
  | RPeek (item : Element) (err : option error)
  | RLength (n : Z).

Definition run_op (o : op) : M outcome :=
  match o with
  | OpPush item => let* err := Push item in ret (RPush err)
  | OpPop => let* (item, err) := Pop in ret (RPop item err)
  | OpPeek => let* (item, err) := Peek in ret (RPeek item err)
  | OpLength => let* n := Length in ret (RLength n)
  end.

Fixpoint run (ops : list op) : M (list outcome) :=
  match ops with
  | [] => ret []
  | o :: ops' =>
      let* r := run_op o in
      let* rs := run ops' in
      ret (r :: rs)
  end.

(** [n] calls of [Pop] in a row, and [n] calls of [Peek] in a row. *)
Definition pops (n : nat) : M (list outcome) := run (replicate n OpPop).
Definition peeks (n : nat) : M (list outcome) := run (replicate n OpPeek).

(** One call of [Push] per item, in order. *)
Definition pushes (xs : list Element) : M (list outcome) := run (map OpPush xs).

(** The number of calls of [Push], and of [Pop], that returned a nil error. *)
Definition successful_push (r : outcome) : bool :=
  match r with RPush None => true | _ => false end.
Definition successful_pop (r : outcome) : bool :=
  match r with RPop _ None => true | _ => false end.

Definition count_pushes (rs : list outcome) : Z :=
  Z.of_nat (List.length (List.filter successful_push rs)).
Definition count_pops (rs : list outcome) : Z :=
  Z.of_nat (List.length (List.filter successful_pop rs)).


(** *** Representation invariant and abstraction *)

(** What the fields of a live queue satisfy: the backing slice is not
    empty and its capacity is an [int]; [front] indexes it; [length]
    counts at most as many elements as it has slots. *)
Record inv (q : ringBufferQueue) : Prop := mkInv {
  inv_cap : 0 < cap (items q) <= GoInt.max_int;
  inv_front : 0 <= front q < cap (items q);
  inv_length : 0 <= length q <= cap (items q)
}.

#[local] Instance inv_dec q : Decision (inv q).
Proof.
  destruct (decide ((0 < cap (items q) <= GoInt.max_int) /\
                    (0 <= front q < cap (items q)) /\
                    (0 <= length q <= cap (items q)))) as [H | H].
  - left. destruct H as (? & ? & ?). by split.
  - right. intros [? ? ?]. by apply H.
Defined.

(** The capacity can be doubled, and two indexes below it added,
    without leaving the range of [int]: the capacity is below [2^62].
    On 64-bit platforms the Go runtime refuses an allocation of more
    than [2^48] bytes, so every slice it hands out for an element type
    of non-zero size is within [fits]. *)
Definition fits (q : ringBufferQueue) : Prop :=
  2 * cap (items q) <= GoInt.max_int.

#[local] Instance fits_dec q : Decision (fits q).
Proof. unfold fits. apply _. Defined.

(** The live elements, oldest first: the [length] slots of the ring
    that start at [front]. *)
Definition contents (q : ringBufferQueue) : list Element :=
  take (Z.to_nat (length q)) (rotate (Z.to_nat (front q)) (items q)).

(** The states a client can reach through the package's interface. *)
Inductive reachable : ringBufferQueue -> Prop :=
  | reach_bounded capacity q :
      GoInt.in_range capacity ->
      NewBoundedQueue capacity = Ok q -> reachable q
  | reach_unbounded initialCapacity q :
      GoInt.in_range initialCapacity ->
      NewUnboundedQueue initialCapacity = Ok q -> reachable q
  | reach_op q o r q' :
      reachable q -> run_op o q = Ok (r, q') -> reachable q'.

(** *** The queue as a list
    What a client can observe, told on the list of live elements: the
    list grows at its end and shrinks at its head, and a bounded queue
    refuses a push when the list has as many elements as the slice has
    slots. *)

(** The number of elements a queue accepts: the capacity of the slice
    for a bounded queue, no limit for an unbounded one. *)
Definition limit (q : ringBufferQueue) : option Z :=
  if bounded q then Some (cap (items q)) else None.

Definition list_full (lim : option Z) (l : list Element) : bool :=
  match lim with
  | Some K => Z.of_nat (List.length l) =? K
  | None => false
  end.

Definition list_op (lim : option Z) (o : op) (l : list Element)
  : outcome * list Element :=
  match o with
  | OpPush item =>
      if list_full lim l then (RPush (Some ErrQueueFull), l)
      else (RPush None, l ++ [item])
  | OpPop =>
      match l with
      | [] => (RPop zero (Some ErrQueueEmpty), l)
      | y :: l' => (RPop y None, l')
      end
  | OpPeek =>
      match l with
      | [] => (RPeek zero (Some ErrQueueEmpty), l)
      | y :: _ => (RPeek y None, l)
      end
  | OpLength => (RLength (Z.of_nat (List.length l)), l)
  end.

Fixpoint list_run (lim : option Z) (ops : list op) (l : list Element)
  : list outcome * list Element :=
  match ops with
  | [] => ([], l)
  | o :: ops' =>
      let '(r, l1) := list_op lim o l in
      let '(rs, l2) := list_run lim ops' l1 in
      (r :: rs, l2)
  end.

(** The same queue with the other overflow policy. *)
Definition with_bounded (b : bool) (q : ringBufferQueue) : ringBufferQueue :=
  {| items := items q; front := front q; length := length q; bounded := b |}.

(** No call of [Push] in the outcomes was refused. *)
Definition never_full (rs : list outcome) : Prop :=
  Forall (fun r => r <> RPush (Some ErrQueueFull)) rs.

(** A call of [Push], as opposed to the calls that only read or remove. *)
Definition is_push (o : op) : bool :=
  match o with OpPush _ => true | _ => false end.

(** ** Arithmetic of [int] *)

Lemma wrap_in_range z : GoInt.in_range z -> GoInt.wrap z = z.
Proof.
  unfold GoInt.in_range, GoInt.wrap, GoInt.min_int, GoInt.max_int, GoInt.modulus.
  intros Hz. rewrite Z.mod_small; lia.
Qed.

Lemma wrap_above z :
  GoInt.max_int < z <= 2 * GoInt.max_int -> GoInt.wrap z < 0.
Proof.
  unfold GoInt.wrap, GoInt.min_int, GoInt.max_int, GoInt.modulus.
  intros Hz.
  replace (z - -9223372036854775808)
    with ((z - 9223372036854775808) + 1 * 18446744073709551616) by lia.
  rewrite Z.mod_add by lia. rewrite Z.mod_small; lia.
Qed.

Lemma rem_ring i n : 0 <= i -> 0 < n -> Z.rem i n = i mod n.
Proof. intros. apply Z.rem_mod_nonneg; lia. Qed.

(** ** Slices *)

Lemma cap_nonneg (s : list Element) : 0 <= cap s.
Proof. unfold cap. lia. Qed.

Lemma cap_replicate n (x : Element) : cap (replicate n x) = Z.of_nat n.
Proof. unfold cap. by rewrite length_replicate. Qed.

Lemma cap_insert (s : list Element) i x : cap (<[i := x]> s) = cap s.
Proof. unfold cap. by rewrite length_insert. Qed.

Lemma cap_app (s t : list Element) : cap (s ++ t) = cap s + cap t.
Proof. unfold cap. rewrite length_app. lia. Qed.

Lemma cap_rotate (s : list Element) n : cap (rotate n s) = cap s.
Proof. unfold cap. by rewrite length_rotate. Qed.

Lemma make_slice_ok n :
  0 <= n -> make_slice n = Ok (replicate (Z.to_nat n) zero).
Proof.
  intros Hn. unfold make_slice.
  destruct (Z.ltb_spec n 0); [lia | done].
Qed.

Lemma make_slice_negative n : n < 0 -> make_slice n = Panic MakeSliceLenOutOfRange.
Proof.
  intros Hn. unfold make_slice.
  destruct (Z.ltb_spec n 0); [done | lia].
Qed.

Lemma slice_get_ok (s : list Element) i :
  0 <= i < cap s ->
  exists x, s !! Z.to_nat i = Some x /\ slice_get s i = Ok x.
Proof.
  intros Hi. unfold slice_get.
  destruct (Z.leb_spec 0 i); [| lia].
  destruct (Z.ltb_spec i (cap s)); [| lia]. simpl.
  destruct (lookup_lt_is_Some_2 s (Z.to_nat i)) as [x Hx].
  { unfold cap in Hi. lia. }
  exists x. by rewrite Hx.
Qed.

Lemma slice_set_ok (s : list Element) i x :
  0 <= i < cap s -> slice_set s i x = Ok (<[Z.to_nat i := x]> s).
Proof.
  intros Hi. unfold slice_set.
  destruct (Z.leb_spec 0 i); [| lia].
  destruct (Z.ltb_spec i (cap s)); [done | lia].
Qed.

Lemma slice_set_inv (s s' : list Element) i x :
  slice_set s i x = Ok s' -> cap s' = cap s.
Proof.
  unfold slice_set. destruct (_ && _); [| done].
  intros [= <-]. apply cap_insert.
Qed.

Lemma slice_range_ok (s : list Element) lo hi :
  0 <= lo <= hi -> hi <= cap s ->
  slice_range s lo hi = Ok (take (Z.to_nat (hi - lo)) (drop (Z.to_nat lo) s)).
Proof.
  intros Hlo Hhi. unfold slice_range.
  destruct (Z.leb_spec 0 lo); [| lia].
  destruct (Z.leb_spec lo hi); [| lia].
  destruct (Z.leb_spec hi (cap s)); [done | lia].
Qed.

Lemma rotate_front (s : list Element) f :
  (f < List.length s)%nat -> rotate f s = drop f s ++ take f s.
Proof. intros Hf. unfold rotate. by rewrite Nat.mod_small. Qed.

(** ** The methods on a queue that satisfies the invariant *)

Ltac int_lia :=
  unfold fits, GoInt.in_range, GoInt.min_int, GoInt.max_int in *; lia.

Ltac step := cbv beta iota zeta; cbn [items front length bounded].
Ltac run_monad := unfold bind, get, put, ret, lift; step.

Lemma Peek_empty q :
  length q = 0 -> Peek q = Ok ((zero, Some ErrQueueEmpty), q).
Proof. intros H. unfold Peek. run_monad. by rewrite H. Qed.

Lemma Peek_nonempty q :
  inv q -> 0 < length q ->
  exists x, items q !! Z.to_nat (front q) = Some x /\
            Peek q = Ok ((x, None), q).
Proof.
  intros [Hc Hf Hl] Hpos.
  destruct (slice_get_ok (items q) (front q) Hf) as (x & Hx & Hget).
  exists x. split; [done |].
  unfold Peek. run_monad.
  destruct (Z.eqb_spec (length q) 0); [lia |]. by rewrite Hget.
Qed.

Lemma Pop_empty q :
  length q = 0 -> Pop q = Ok ((zero, Some ErrQueueEmpty), q).
Proof. intros H. unfold Pop, bind. by rewrite Peek_empty. Qed.

Lemma Pop_nonempty q :
  inv q -> 0 < length q ->
  exists x, items q !! Z.to_nat (front q) = Some x /\
            Pop q = Ok ((x, None),
                        {| items := items q;
                           front := (front q + 1) mod cap (items q);
                           length := length q - 1;
                           bounded := bounded q |}).
Proof.
  intros Hinv Hpos.
  destruct (Peek_nonempty q Hinv Hpos) as (x & Hx & Hpeek).
  destruct Hinv as [Hc Hf Hl].
  exists x. split; [done |].
  unfold Pop, bind at 1. rewrite Hpeek.
  unfold int_rem, GoInt.add, GoInt.sub. run_monad.
  destruct (Z.eqb_spec (cap (items q)) 0); [lia |].
  rewrite !wrap_in_range by int_lia.
  by rewrite rem_ring by lia.
Qed.

Lemma copy_shorter (dst src : list Element) :
  (List.length src <= List.length dst)%nat ->
  copy dst src = (src ++ drop (List.length src) dst, cap src).
Proof.
  intros Hle. unfold copy, cap.
  rewrite Z.min_r by lia. rewrite Nat2Z.id.
  by rewrite firstn_all.
Qed.

(** The split copy of [expand]: the segment from [front] to the end of
    the old slice, then the segment before [front], then zero values. *)
Lemma expand_full q :
  inv q -> length q = cap (items q) -> fits q ->
  expand q =
    Ok (tt, {| items := (drop (Z.to_nat (front q)) (items q)
                         ++ take (Z.to_nat (front q)) (items q))
                        ++ replicate (Z.to_nat (cap (items q))) zero;
               front := 0;
               length := length q;
               bounded := bounded q |}).
Proof.
  intros [Hc Hf Hl] Hfull Hfits. unfold fits in Hfits.
  set (s := items q) in *. set (f := Z.to_nat (front q)).
  set (n := List.length s).
  assert (Hn : cap s = Z.of_nat n) by done.
  assert (Hfn : (f < n)%nat) by (unfold f; lia).
  assert (Htail : slice_range s (front q) (length q) = Ok (drop f s)).
  { rewrite slice_range_ok by lia. fold f.
    rewrite take_ge; [done |]. rewrite length_drop. fold n. lia. }
  assert (Hcopy1 :
    copy (replicate (Z.to_nat (cap s * 2)) zero) (drop f s)
    = (drop f s ++ replicate (n + f) zero, cap s - front q)).
  { rewrite copy_shorter.
    - rewrite drop_replicate, length_drop. fold n. unfold cap.
      rewrite length_drop. fold n.
      f_equal; [do 2 f_equal |]; unfold f in *; lia.
    - rewrite length_drop, length_replicate. fold n. lia. }
  assert (Hdst :
    slice_range (drop f s ++ replicate (n + f) zero) (cap s - front q)
      (cap (drop f s ++ replicate (n + f) zero))
    = Ok (replicate (n + f) zero)).
  { rewrite slice_range_ok.
    - replace (Z.to_nat (cap s - front q)) with (List.length (drop f s) + 0)%nat
        by (rewrite length_drop; fold n; lia).
      rewrite drop_app_add, drop_0. rewrite take_ge; [done |].
      rewrite length_replicate, cap_app, cap_replicate. unfold cap.
      rewrite length_drop. fold n. lia.
    - rewrite cap_app, cap_replicate. unfold cap. rewrite length_drop.
      fold n. lia.
    - lia. }
  assert (Hhead : slice_range s 0 (front q) = Ok (take f s)).
  { rewrite slice_range_ok by lia. by rewrite Z.sub_0_r. }
  assert (Hcopy2 :
    copy (replicate (n + f) zero) (take f s)
    = (take f s ++ replicate n zero, front q)).
  { rewrite copy_shorter.
    - rewrite drop_replicate, length_take. fold n. unfold cap.
      rewrite length_take. fold n.
      f_equal; [do 2 f_equal |]; unfold f in *; lia.
    - rewrite length_take, length_replicate. lia. }
  unfold expand. run_monad. fold s.
  destruct (Z.ltb_spec (length q) (cap s)); [lia |].
  unfold GoInt.mul. rewrite wrap_in_range by int_lia.
  rewrite make_slice_ok by lia.
  rewrite Htail, Hcopy1. step.
  destruct (Z.gtb_spec (front q) 0) as [Hpos | Hzero].
  - rewrite Hdst, Hhead, Hcopy2. simpl.
    replace (Z.to_nat (cap s - front q)) with (List.length (drop f s) + 0)%nat
      by (rewrite length_drop; fold n; lia).
    rewrite take_app_add, take_0, app_nil_r.
    rewrite Hn, Nat2Z.id. by rewrite <- (assoc_L (++)).
  - assert (f = 0%nat) as -> by (unfold f; lia).
    rewrite drop_0, take_0, Hn, Nat2Z.id. by rewrite Nat.add_0_r, app_nil_r.
Qed.

Lemma Push_full_bounded q item :
  length q = cap (items q) -> bounded q = true ->
  Push item q = Ok (Some ErrQueueFull, q).
Proof.
  intros Hfull Hb. unfold Push. run_monad.
  destruct (Z.eqb_spec (length q) (cap (items q))); [| lia].
  by rewrite Hb.
Qed.

Lemma Push_room q item :
  inv q -> length q < cap (items q) ->
  front q + length q <= GoInt.max_int ->
  Push item q =
    Ok (None, {| items := <[Z.to_nat ((front q + length q) mod cap (items q))
                             := item]> (items q);
                 front := front q;
                 length := length q + 1;
                 bounded := bounded q |}).
Proof.
  intros [Hc Hf Hl] Hroom Hsum. unfold Push. run_monad.
  destruct (Z.eqb_spec (length q) (cap (items q))); [lia |]. step.
  unfold int_rem, GoInt.add.
  destruct (Z.eqb_spec (cap (items q)) 0); [lia |].
  rewrite !wrap_in_range by int_lia.
  rewrite rem_ring by lia.
  rewrite slice_set_ok; [done |].
  apply Z.mod_pos_bound. lia.
Qed.

Lemma Push_grow q item :
  inv q -> length q = cap (items q) -> bounded q = false -> fits q ->
  Push item q =
    Ok (None, {| items := <[Z.to_nat (length q) := item]>
                            ((drop (Z.to_nat (front q)) (items q)
                              ++ take (Z.to_nat (front q)) (items q))
                             ++ replicate (Z.to_nat (cap (items q))) zero);
                 front := 0;
                 length := length q + 1;
                 bounded := false |}).
Proof.
  intros Hinv Hfull Hb Hfits.
  pose proof (expand_full q Hinv Hfull Hfits) as Hexp.
  destruct Hinv as [Hc Hf Hl]. unfold fits in Hfits.
  unfold Push. unfold bind at 1 2 3. unfold get at 1. step.
  destruct (Z.eqb_spec (length q) (cap (items q))); [| lia].
  rewrite Hb, Hexp. run_monad.
  set (s' := (_ ++ _) ++ _).
  assert (Hs' : cap s' = 2 * cap (items q)).
  { unfold s'. rewrite !cap_app, cap_replicate. unfold cap.
    rewrite length_drop, length_take. lia. }
  unfold int_rem, GoInt.add. rewrite Hs'.
  destruct (Z.eqb_spec (2 * cap (items q)) 0); [lia |].
  rewrite !wrap_in_range by int_lia.
  rewrite rem_ring, Z.mod_small by lia.
  rewrite slice_set_ok by lia. step. by rewrite Z.add_0_l, Hb.
Qed.

(** ** The ring as a list *)

Lemma rotate_0 (s : list Element) : rotate 0 s = s.
Proof. unfold rotate. by rewrite Nat.Div0.mod_0_l, drop_0, take_0, app_nil_r. Qed.

Lemma take_insert_last (l : list Element) n x :
  (n < List.length l)%nat -> take (S n) (<[n := x]> l) = take n l ++ [x].
Proof.
  intros Hn. rewrite (take_S_r _ _ x) by by apply list_lookup_insert_eq.
  by rewrite take_insert_ge by lia.
Qed.

(** Writing behind the last live element appends to the live elements. *)
Lemma ring_push (s : list Element) (f len : nat) x :
  (f < List.length s)%nat -> (len < List.length s)%nat ->
  take (S len)
    (rotate f (<[Z.to_nat ((Z.of_nat f + Z.of_nat len) mod Z.of_nat (List.length s))
                 := x]> s))
  = take len (rotate f s) ++ [x].
Proof.
  intros Hf Hlen.
  change (Z.to_nat ((Z.of_nat f + Z.of_nat len) mod Z.of_nat (List.length s)))
    with (rotate_nat_add f len (List.length s)).
  rewrite rotate_insert_l by done.
  apply take_insert_last. by rewrite length_rotate.
Qed.

(** Advancing [front] drops the oldest live element. *)
Lemma ring_pop (s : list Element) (f len : nat) x :
  (f < List.length s)%nat -> (len < List.length s)%nat ->
  s !! f = Some x ->
  take (S len) (rotate f s)
  = x :: take len (rotate ((f + 1) mod List.length s) s).
Proof.
  intros Hf Hlen Hx.
  rewrite (rotate_front s f) by done.
  rewrite (drop_S _ _ _ Hx). simpl. f_equal.
  destruct (decide (S f = List.length s)) as [Heq | Hne].
  - replace (f + 1)%nat with (List.length s) by lia.
    rewrite Nat.Div0.mod_same, rotate_0.
    rewrite drop_ge by lia. simpl.
    rewrite take_take. f_equal. lia.
  - rewrite Nat.mod_small by lia.
    rewrite (rotate_front s (f + 1)) by lia.
    replace (f + 1)%nat with (S f) by lia.
    rewrite (take_S_r _ _ _ Hx), (assoc_L (++)).
    rewrite (take_app_le (_ ++ _)); [done |].
    rewrite length_app, length_drop, length_take. lia.
Qed.

(** ** One call, on states and on the list of live elements *)

Lemma contents_length q :
  inv q -> Z.of_nat (List.length (contents q)) = length q.
Proof.
  intros [Hc Hf Hl]. unfold contents, cap in *.
  rewrite length_take, length_rotate. lia.
Qed.

Lemma contents_empty q : length q = 0 -> contents q = [].
Proof. intros H. unfold contents. by rewrite H. Qed.

Lemma Pop_step q :
  inv q -> 0 < length q ->
  exists x q',
    Pop q = Ok ((x, None), q') /\ inv q' /\
    contents q = x :: contents q' /\
    length q' = length q - 1 /\
    items q' = items q /\ bounded q' = bounded q.
Proof.
  intros Hinv Hpos.
  destruct (Pop_nonempty q Hinv Hpos) as (x & Hx & Hpop).
  destruct Hinv as [Hc Hf Hl].
  eexists x, _. split; [exact Hpop |]. step.
  assert (Hmod : 0 <= (front q + 1) mod cap (items q) < cap (items q))
    by (apply Z.mod_pos_bound; lia).
  repeat split; step; try done; try lia.
  unfold contents. step. unfold cap in *.
  replace (Z.to_nat (length q)) with (S (Z.to_nat (length q - 1))) by lia.
  rewrite (ring_pop _ _ _ x) by (done || lia).
  do 3 f_equal. apply Nat2Z.inj.
  rewrite Nat2Z.inj_mod, Z2Nat.id by lia. f_equal; lia.
Qed.

Lemma Push_step q item :
  inv q -> fits q -> (length q = cap (items q) -> bounded q = false) ->
  exists q',
    Push item q = Ok (None, q') /\ inv q' /\
    contents q' = contents q ++ [item] /\
    length q' = length q + 1 /\
    bounded q' = bounded q /\
    (cap (items q') = cap (items q) \/
     length q = cap (items q) /\ cap (items q') = 2 * cap (items q)).
Proof.
  intros Hinv Hfits Hb.
  destruct (decide (length q = cap (items q))) as [Hfull | Hroom].
  - specialize (Hb Hfull).
    eexists. split; [by apply Push_grow |].
    destruct Hinv as [Hc Hf Hl]. unfold fits in Hfits. step.
    set (rot := drop _ _ ++ take _ _).
    assert (Hrot : rot = rotate (Z.to_nat (front q)) (items q)).
    { unfold rot. rewrite rotate_front; [done |]. unfold cap in *. lia. }
    assert (Hcap : cap (<[Z.to_nat (length q) := item]>
                          (rot ++ replicate (Z.to_nat (cap (items q))) zero))
                   = 2 * cap (items q)).
    { rewrite cap_insert, cap_app, cap_replicate, Hrot, cap_rotate. lia. }
    repeat split; step; rewrite ?Hcap; try done; try lia.
    unfold contents. step. rewrite rotate_0.
    replace (Z.to_nat (length q + 1)) with (S (Z.to_nat (length q))) by lia.
    rewrite take_insert_last.
    + f_equal. rewrite <- Hrot. rewrite take_app_le; [done |].
      rewrite Hrot, length_rotate. unfold cap in *. lia.
    + rewrite length_app, length_replicate, Hrot, length_rotate.
      unfold cap in *. lia.
  - destruct Hinv as [Hc Hf Hl]. unfold fits in Hfits.
    eexists. split; [apply Push_room; [done | lia | int_lia] |]. step.
    repeat split; step; rewrite ?cap_insert; try done; try lia.
    unfold contents. step. unfold cap in *.
    replace (Z.to_nat (length q + 1)) with (S (Z.to_nat (length q))) by lia.
    rewrite <- (ring_push _ _ _ item) by lia.
    by rewrite !Z2Nat.id by lia.
Qed.

(** Beyond [fits] the doubled capacity wraps to a negative [int] and
    [make] panics. *)
Lemma expand_overflow q :
  inv q -> length q = cap (items q) -> ~ fits q ->
  expand q = Panic MakeSliceLenOutOfRange.
Proof.
  intros [Hc Hf Hl] Hfull Hfits. unfold fits in Hfits.
  unfold expand. run_monad.
  destruct (Z.ltb_spec (length q) (cap (items q))); [lia |].
  unfold GoInt.mul. rewrite make_slice_negative; [done |].
  apply wrap_above. int_lia.
Qed.

Lemma Push_overflow q item :
  inv q -> length q = cap (items q) -> bounded q = false -> ~ fits q ->
  Push item q = Panic MakeSliceLenOutOfRange.
Proof.
  intros Hinv Hfull Hb Hfits.
  unfold Push. unfold bind at 1 2 3. unfold get at 1. step.
  destruct (Z.eqb_spec (length q) (cap (items q))); [| lia].
  by rewrite Hb, expand_overflow.
Qed.

(** What a call of [Push] that returns has done, whatever the capacity. *)
Lemma Push_inv q item e q' :
  inv q -> Push item q = Ok (e, q') ->
  inv q' /\ bounded q' = bounded q /\
  (e = Some ErrQueueFull /\ q' = q /\
     bounded q = true /\ length q = cap (items q)
   \/
   e = None /\ length q' = length q + 1 /\
     (cap (items q') = cap (items q) \/
      bounded q = false /\ length q = cap (items q) /\
      cap (items q') = 2 * cap (items q))).
Proof.
  intros Hinv.
  destruct (decide (length q = cap (items q))) as [Hfull | Hroom].
  - destruct (bounded q) eqn:Hb.
    + rewrite Push_full_bounded by done. intros [= <- <-].
      split_and!; [done.. |]. by left.
    + destruct (decide (fits q)) as [Hfits | Hfits].
      * destruct (Push_step q item Hinv Hfits) as (q1 & -> & ? & ? & ? & ? & Hcap);
          [done |].
        intros [= <- <-]. split_and!; [done | congruence |].
        right. split_and!; [done.. |].
        destruct Hcap as [? | [? ?]]; [by left | by right].
      * by rewrite Push_overflow.
  - destruct Hinv as [Hc Hf Hl]. unfold Push. run_monad.
    destruct (Z.eqb_spec (length q) (cap (items q))); [done |]. step.
    unfold int_rem. destruct (Z.eqb_spec (cap (items q)) 0); [lia |].
    destruct (slice_set _ _ _) as [s' |] eqn:Hset; [| done]. step.
    intros [= <- <-]. apply slice_set_inv in Hset.
    unfold GoInt.add. rewrite (wrap_in_range (length q + 1)) by int_lia.
    split_and!; [split; step; lia | done |].
    right. split_and!; [done.. |]. by left.
Qed.

Lemma Peek_inv q x e q' :
  Peek q = Ok ((x, e), q') -> q' = q.
Proof.
  unfold Peek. run_monad. destruct (length q =? 0); [by intros [= _ _ <-] |].
  destruct (slice_get _ _); [| done]. by intros [= _ _ <-].
Qed.

(** What a call of [Pop] has done. *)
Lemma Pop_inv q x e q' :
  inv q -> Pop q = Ok ((x, e), q') ->
  inv q' /\ bounded q' = bounded q /\ items q' = items q /\
  (e = Some ErrQueueEmpty /\ x = zero /\ q' = q /\ length q = 0
   \/
   e = None /\ length q' = length q - 1 /\ 0 < length q).
Proof.
  intros Hinv.
  destruct (decide (length q = 0)) as [Hempty | Hne].
  - rewrite Pop_empty by done. intros [= <- <- <-].
    split_and!; [done.. |]. by left.
  - assert (Hpos : 0 < length q) by (destruct Hinv; lia).
    destruct (Pop_step q Hinv Hpos) as (y & q1 & -> & ? & ? & ? & ? & ?).
    intros [= <- <- <-]. split_and!; [done.. |]. by right.
Qed.

(** ** Construction *)

Lemma new_bounded_ok capacity :
  0 <= capacity ->
  newBoundedRingBufferQueue capacity =
    Ok {| items := replicate
                     (Z.to_nat (if capacity =? 0
                                then defaultRingBufferQueueCapacity
                                else capacity)) zero;
          front := 0; length := 0; bounded := true |}.
Proof.
  intros Hc. unfold newBoundedRingBufferQueue, defaultRingBufferQueueCapacity.
  rewrite make_slice_ok; [done |]. destruct (capacity =? 0); lia.
Qed.

Lemma new_unbounded_ok initialCapacity :
  0 <= initialCapacity ->
  newUnboundedRingBufferQueue initialCapacity =
    Ok {| items := replicate
                     (Z.to_nat (if initialCapacity =? 0
                                then defaultRingBufferQueueCapacity
                                else initialCapacity)) zero;
          front := 0; length := 0; bounded := false |}.
Proof.
  intros Hc. unfold newUnboundedRingBufferQueue, defaultRingBufferQueueCapacity.
  rewrite make_slice_ok; [done |]. destruct (initialCapacity =? 0); lia.
Qed.

Lemma new_bounded_negative capacity :
  capacity < 0 ->
  newBoundedRingBufferQueue capacity = Panic MakeSliceLenOutOfRange.
Proof.
  intros Hc. unfold newBoundedRingBufferQueue.
  destruct (Z.eqb_spec capacity 0); [lia |].
  by rewrite make_slice_negative.
Qed.

Lemma new_unbounded_negative initialCapacity :
  initialCapacity < 0 ->
  newUnboundedRingBufferQueue initialCapacity = Panic MakeSliceLenOutOfRange.
Proof.
  intros Hc. unfold newUnboundedRingBufferQueue.
  destruct (Z.eqb_spec initialCapacity 0); [lia |].
  by rewrite make_slice_negative.
Qed.

(** A constructor that returns has built an empty queue whose capacity
    is its argument, or the default for the argument 0. *)
Lemma new_queue_inv capacity q :
  GoInt.in_range capacity ->
  newBoundedRingBufferQueue capacity = Ok q \/
  newUnboundedRingBufferQueue capacity = Ok q ->
  inv q /\ front q = 0 /\ length q = 0 /\
  cap (items q) = (if capacity =? 0 then 2 else capacity).
Proof.
  intros Hrange Hnew.
  destruct (Z.lt_ge_cases capacity 0) as [Hneg | Hpos].
  - rewrite new_bounded_negative, new_unbounded_negative in Hnew by done.
    by destruct Hnew.
  - rewrite new_bounded_ok, new_unbounded_ok in Hnew by done.
    unfold defaultRingBufferQueueCapacity in Hnew.
    assert (Hcap : 0 < (if capacity =? 0 then 2 else capacity) <= GoInt.max_int).
    { destruct (Z.eqb_spec capacity 0); int_lia. }
    destruct Hnew as [[= <-] | [= <-]]; step; rewrite cap_replicate;
      (split_and!; [split; step; rewrite ?cap_replicate; lia | done | done | lia]).
Qed.

(** ** Sequences of calls *)

Lemma run_cons o ops q :
  run (o :: ops) q =
    match run_op o q with
    | Ok (r, q') =>
        match run ops q' with
        | Ok (rs, q'') => Ok (r :: rs, q'')
        | Panic p => Panic p
        end
    | Panic p => Panic p
    end.
Proof.
  simpl. unfold bind at 1. destruct (run_op o q) as [[r q'] |]; [| done].
  unfold bind at 1. by destruct (run ops q') as [[rs q''] |].
Qed.

Lemma run_app ops1 ops2 q rs1 q1 :
  run ops1 q = Ok (rs1, q1) ->
  run (ops1 ++ ops2) q =
    match run ops2 q1 with
    | Ok (rs2, q2) => Ok (rs1 ++ rs2, q2)
    | Panic p => Panic p
    end.
Proof.
  revert q rs1. induction ops1 as [| o ops1 IH]; intros q rs1.
  - intros [= <- <-]. simpl. by destruct (run ops2 q) as [[? ?] |].
  - rewrite <- app_comm_cons, !run_cons.
    destruct (run_op o q) as [[r q'] |]; [| done].
    destruct (run ops1 q') as [[rs q''] |] eqn:Hrun; [| done].
    intros [= <- <-]. rewrite (IH _ _ Hrun).
    by destruct (run ops2 q'') as [[? ?] |].
Qed.

Lemma count_pushes_cons r rs :
  count_pushes (r :: rs) =
    (if successful_push r then 1 else 0) + count_pushes rs.
Proof.
  unfold count_pushes. simpl. destruct (successful_push r); simpl; lia.
Qed.

Lemma count_pops_cons r rs :
  count_pops (r :: rs) =
    (if successful_pop r then 1 else 0) + count_pops rs.
Proof.
  unfold count_pops. simpl. destruct (successful_pop r); simpl; lia.
Qed.

(** What one call through the interface does to the fields. *)
Lemma run_op_inv o q r q' :
  inv q -> run_op o q = Ok (r, q') ->
  inv q' /\ bounded q' = bounded q /\
  (cap (items q') = cap (items q) \/
   bounded q = false /\ cap (items q') = 2 * cap (items q)) /\
  length q' =
    length q + (if successful_push r then 1 else 0)
             - (if successful_pop r then 1 else 0).
Proof.
  intros Hinv. destruct o as [item | | |]; simpl; unfold bind at 1.
  - destruct (Push item q) as [[e q1] |] eqn:HPush; [| done].
    intros [= <- <-].
    destruct (Push_inv _ _ _ _ Hinv HPush)
      as (? & ? & [(-> & -> & ? & ?) | (-> & ? & Hcap)]).
    + split_and!; [done | done | by left | simpl; lia].
    + split_and!; [done | done | | simpl; lia].
      destruct Hcap as [? | (? & ? & ?)]; [by left | by right].
  - destruct (Pop q) as [[[x e] q1] |] eqn:HPop; [| done].
    intros [= <- <-].
    destruct (Pop_inv _ _ _ _ Hinv HPop)
      as (? & ? & Hitems & [(-> & -> & -> & ?) | (-> & ? & ?)]).
    + split_and!; [done | done | by left | simpl; lia].
    + split_and!; [done | done | left; by rewrite Hitems | simpl; lia].
  - destruct (Peek q) as [[[x e] q1] |] eqn:HPeek; [| done].
    intros [= <- <-]. apply Peek_inv in HPeek as ->.
    split_and!; [done | done | by left | simpl; lia].
  - unfold Length. run_monad. intros [= <- <-].
    split_and!; [done | done | by left | simpl; lia].
Qed.

Lemma run_inv ops q rs q' :
  inv q -> run ops q = Ok (rs, q') ->
  inv q' /\ bounded q' = bounded q /\
  cap (items q) <= cap (items q') /\
  (bounded q = true -> cap (items q') = cap (items q)) /\
  length q' = length q + count_pushes rs - count_pops rs.
Proof.
  revert q rs. induction ops as [| o ops IH]; intros q rs Hinv.
  - intros [= <- <-]. split_and!; try done. unfold count_pushes, count_pops.
    simpl. lia.
  - rewrite run_cons.
    destruct (run_op o q) as [[r q1] |] eqn:Hop; [| done].
    destruct (run ops q1) as [[rs1 q2] |] eqn:Hrun; [| done].
    intros [= <- <-].
    destruct (run_op_inv _ _ _ _ Hinv Hop) as (Hinv1 & Hb1 & Hcap1 & Hlen1).
    destruct (IH _ _ Hinv1 Hrun) as (Hinv2 & Hb2 & Hcap2 & Hbcap2 & Hlen2).
    rewrite count_pushes_cons, count_pops_cons.
    destruct Hinv as [Hc Hf Hl].
    split_and!; [done | congruence | lia | | lia].
    intros Hb. rewrite Hbcap2 by congruence.
    destruct Hcap1 as [? | [? ?]]; [done | congruence].
Qed.

Lemma reachable_inv q : reachable q -> inv q.
Proof.
  induction 1 as [c q Hc Hnew | c q Hc Hnew | q o r q' _ IH Hop].
  - by apply (new_queue_inv c q Hc); left.
  - by apply (new_queue_inv c q Hc); right.
  - by apply (run_op_inv _ _ _ _ IH Hop).
Qed.

(** ** Runs of pushes and of pops *)

Lemma run_op_pop q :
  run_op OpPop q =
    match Pop q with
    | Ok ((x, e), q') => Ok (RPop x e, q')
    | Panic p => Panic p
    end.
Proof. simpl. unfold bind. by destruct (Pop q) as [[[x e] q'] |]. Qed.

Lemma run_op_push item q :
  run_op (OpPush item) q =
    match Push item q with
    | Ok (e, q') => Ok (RPush e, q')
    | Panic p => Panic p
    end.
Proof. simpl. unfold bind. by destruct (Push item q) as [[e q'] |]. Qed.

Lemma run_op_peek q :
  run_op OpPeek q =
    match Peek q with
    | Ok ((x, e), q') => Ok (RPeek x e, q')
    | Panic p => Panic p
    end.
Proof. simpl. unfold bind. by destruct (Peek q) as [[[x e] q'] |]. Qed.

(** Popping as often as there are live elements returns them all,
    oldest first, and empties the queue. *)
Lemma pops_contents l q :
  inv q -> contents q = l ->
  exists q', pops (List.length l) q = Ok (map (fun y => RPop y None) l, q') /\
             inv q' /\ length q' = 0.
Proof.
  revert q. induction l as [| y l IH]; intros q Hinv Hl.
  - exists q. split_and!; [done | done |].
    rewrite <- (contents_length q Hinv), Hl. done.
  - assert (Hpos : 0 < length q).
    { rewrite <- (contents_length q Hinv), Hl. simpl. lia. }
    destruct (Pop_step q Hinv Hpos) as (x & q1 & HPop & Hinv1 & Hc & _).
    rewrite Hl in Hc. injection Hc as <- Hl1.
    destruct (IH q1 Hinv1 (eq_sym Hl1)) as (q' & Hrun & ? & ?).
    exists q'. split_and!; [| done | done].
    unfold pops in *. simpl replicate. rewrite run_cons, run_op_pop, HPop.
    by rewrite Hrun.
Qed.

(** Pops that all returned an element returned the oldest live
    elements, in order. *)
Lemma pops_ok_inv ys q q0 :
  inv q ->
  pops (List.length ys) q = Ok (map (fun y => RPop y None) ys, q0) ->
  inv q0 /\ contents q = ys ++ contents q0.
Proof.
  revert q. induction ys as [| y ys IH]; intros q Hinv.
  - by intros [= <-].
  - unfold pops in *. simpl replicate. rewrite run_cons, run_op_pop.
    destruct (Pop q) as [[[x e] q1] |] eqn:HPop; [| done].
    destruct (run _ q1) as [[rs q2] |] eqn:Hrun; [| done].
    intros [= -> -> -> ->].
    destruct (Pop_inv _ _ _ _ Hinv HPop) as (Hinv1 & _ & _ & [(? & _) | (_ & _ & Hpos)]);
      [done |].
    destruct (Pop_step q Hinv Hpos) as (x' & q1' & HPop' & _ & Hc & _).
    rewrite HPop in HPop'. injection HPop' as <- <-.
    destruct (IH q1 Hinv1 Hrun) as (? & Hc1).
    split; [done |]. by rewrite Hc, Hc1.
Qed.

(** Pushes that all returned nil appended their items to the live
    elements, as long as the capacity reached [fits]. *)
Lemma pushes_ok_inv xs q q1 :
  inv q ->
  pushes xs q = Ok (map (fun _ => RPush None) xs, q1) ->
  fits q1 ->
  inv q1 /\ contents q1 = contents q ++ xs /\
  cap (items q) <= cap (items q1).
Proof.
  revert q. induction xs as [| x xs IH]; intros q Hinv.
  - intros [= <-] _. by rewrite app_nil_r.
  - unfold pushes in *. simpl map. rewrite run_cons, run_op_push.
    destruct (Push x q) as [[e q'] |] eqn:HPush; [| done].
    destruct (run _ q') as [[rs q2] |] eqn:Hrun; [| done].
    intros [= -> -> ->] Hfits.
    destruct (Push_inv _ _ _ _ Hinv HPush)
      as (Hinv' & _ & [(? & _) | (_ & _ & Hcap)]); [done |].
    destruct (IH q' Hinv' Hrun Hfits) as (Hinv1 & Hc1 & Hcap1).
    assert (Hle : cap (items q) <= cap (items q')).
    { destruct Hinv as [Hc _ _]. destruct Hcap as [? | (_ & _ & ?)]; lia. }
    assert (Hfitsq : fits q) by (unfold fits in *; lia).
    destruct (Push_step q x Hinv Hfitsq) as (q'' & HPush' & _ & Hc & _).
    { intros Hfull. destruct (bounded q) eqn:Hb; [| done].
      by rewrite Push_full_bounded in HPush. }
    rewrite HPush in HPush'. injection HPush' as <-.
    split_and!; [done | | lia].
    by rewrite Hc1, Hc, <- (assoc_L (++)).
Qed.

(** While there is room no growth happens: the pushes succeed in both
    kinds of queue and leave [front] and the capacity alone. *)
Lemma pushes_room xs q :
  inv q ->
  length q + Z.of_nat (List.length xs) <= cap (items q) ->
  front q + length q + Z.of_nat (List.length xs) <= GoInt.max_int + 1 ->
  exists q',
    pushes xs q = Ok (map (fun _ => RPush None) xs, q') /\ inv q' /\
    length q' = length q + Z.of_nat (List.length xs) /\
    front q' = front q /\ cap (items q') = cap (items q) /\
    bounded q' = bounded q.
Proof.
  revert q. induction xs as [| x xs IH]; intros q Hinv Hroom Hsum.
  - exists q. simpl in *. split_and!; try done. lia.
  - simpl List.length in *.
    pose proof Hinv as [Hc Hf Hl].
    assert (HPush := Push_room q x Hinv ltac:(lia) ltac:(lia)).
    set (q1 := {| items := _ |}) in HPush.
    assert (Hinv1 : inv q1).
    { split; unfold q1; step; rewrite ?cap_insert; lia. }
    destruct (IH q1 Hinv1) as (q' & Hrun & ? & Hlen & Hfront & Hcap & Hb).
    { unfold q1; step; rewrite ?cap_insert; lia. }
    { unfold q1; step; lia. }
    exists q'. unfold pushes in *. simpl map.
    rewrite run_cons, run_op_push, HPush, Hrun.
    unfold q1 in Hlen, Hfront, Hcap, Hb. revert Hlen Hfront Hcap Hb. step.
    rewrite cap_insert. intros. split_and!; try done. lia.
Qed.

Lemma peeks_nonempty n q x :
  Peek q = Ok ((x, None), q) ->
  peeks n q = Ok (replicate n (RPeek x None), q).
Proof.
  intros HPeek. unfold peeks. induction n as [| n IH]; [done |].
  simpl replicate. by rewrite run_cons, run_op_peek, HPeek, IH.
Qed.

(** Within [fits], and with room in [int] for four times the elements
    that the calls can add, a sequence of calls returns. *)
Lemma run_total ops q :
  inv q -> fits q ->
  4 * (length q + Z.of_nat (List.length ops)) <= GoInt.max_int ->
  exists rs q', run ops q = Ok (rs, q') /\ inv q' /\ fits q'.
Proof.
  revert q. induction ops as [| o ops IH]; intros q Hinv Hfits Hbound.
  - by exists [], q.
  - simpl List.length in Hbound. rewrite run_cons.
    assert (Hstep : exists r q1,
      run_op o q = Ok (r, q1) /\ inv q1 /\ fits q1 /\ length q1 <= length q + 1).
    { destruct o as [item | | |].
      - rewrite run_op_push.
        destruct (decide (length q = cap (items q) /\ bounded q = true))
          as [[Hfull Hb] | Hroom].
        + rewrite Push_full_bounded by done. exists (RPush (Some ErrQueueFull)), q.
          split_and!; [done | done | done | lia].
        + destruct (Push_step q item Hinv Hfits)
            as (q1 & -> & Hinv1 & _ & Hlen & _ & Hcap).
          { intros Hfull. destruct (bounded q); [| done]. by destruct Hroom. }
          exists (RPush None), q1. split_and!; [done | done | | lia].
          unfold fits in *. destruct Hcap as [-> | [Hfull ->]]; [done | lia].
      - rewrite run_op_pop.
        destruct (decide (length q = 0)) as [Hempty | Hne].
        + rewrite Pop_empty by done. eexists _, q.
          split_and!; [done | done | done | lia].
        + destruct (Pop_step q Hinv) as (x & q1 & -> & ? & _ & ? & Hitems & _).
          { destruct Hinv. lia. }
          exists (RPop x None), q1. unfold fits in *. rewrite Hitems.
          split_and!; [done | done | done | lia].
      - rewrite run_op_peek.
        destruct (decide (length q = 0)) as [Hempty | Hne].
        + rewrite Peek_empty by done. eexists _, q.
          split_and!; [done | done | done | lia].
        + destruct (Peek_nonempty q Hinv) as (x & _ & ->).
          { destruct Hinv. lia. }
          exists (RPeek x None), q. split_and!; [done | done | done | lia].
      - simpl. unfold Length. run_monad. eexists _, q.
        split_and!; [done | done | done | lia]. }
    destruct Hstep as (r & q1 & -> & Hinv1 & Hfits1 & Hlen1).
    destruct (IH q1 Hinv1 Hfits1) as (rs & q' & -> & ? & ?); [lia |].
    by exists (r :: rs), q'.
Qed.

Lemma run_op_total o q :
  inv q -> fits q -> exists r q', run_op o q = Ok (r, q').
Proof.
  intros Hinv Hfits. destruct o as [item | | |].
  - rewrite run_op_push.
    destruct (decide (length q = cap (items q) /\ bounded q = true))
      as [[Hfull Hb] | Hroom].
    + rewrite Push_full_bounded by done. eauto.
    + destruct (Push_step q item Hinv Hfits) as (q' & -> & _); [| eauto].
      intros Hfull. destruct (bounded q); [| done]. by destruct Hroom.
  - rewrite run_op_pop.
    destruct (decide (length q = 0)) as [Hempty | Hne].
    + rewrite Pop_empty by done. eauto.
    + destruct (Pop_step q Hinv) as (x & q' & -> & _); [| eauto].
      destruct Hinv. lia.
  - rewrite run_op_peek.
    destruct (decide (length q = 0)) as [Hempty | Hne].
    + rewrite Peek_empty by done. eauto.
    + destruct (Peek_nonempty q Hinv) as (x & _ & ->); [| eauto].
      destruct Hinv. lia.
  - simpl. unfold Length. run_monad. eauto.
Qed.

Lemma new_queue_length capacity q :
  newBoundedRingBufferQueue capacity = Ok q \/
  newUnboundedRingBufferQueue capacity = Ok q ->
  length q = 0.
Proof.
  unfold newBoundedRingBufferQueue, newUnboundedRingBufferQueue.
  destruct (make_slice _); [| by intros [? | ?]].
  by intros [[= <-] | [= <-]].
Qed.

Lemma grown_lookup (s : list Element) (f i : nat) (pad : list Element) :
  (f < List.length s)%nat -> (i < List.length s)%nat ->
  ((drop f s ++ take f s) ++ pad) !! i
  = s !! Z.to_nat ((Z.of_nat f + Z.of_nat i) mod Z.of_nat (List.length s)).
Proof.
  intros Hf Hi. rewrite <- rotate_front by done.
  rewrite lookup_app_l by (by rewrite length_rotate).
  by rewrite lookup_rotate_r.
Qed.

(** ** The properties of the specification *)

(** C1 (FIFO order).  Take a queue of either kind and of any capacity
    that holds the elements [ys] (popping it [length ys] times returns
    them and leaves it empty; [ys] is empty for a new queue).  If the
    items [xs] are then pushed one after the other, with no pop in
    between and every [Push] returning nil, [Pop] returns first [ys]
    and then exactly the items [xs] in the order they were pushed, and
    the queue is empty again.  The capacity reached by the pushes is
    within [fits], where the index arithmetic of [int] is exact. *)
Theorem fifo_order q ys xs q0 q1 :
  inv q ->
  pops (List.length ys) q = Ok (map (fun y => RPop y None) ys, q0) ->
  length q0 = 0 ->
  pushes xs q = Ok (map (fun _ => RPush None) xs, q1) ->
  fits q1 ->
  exists q2,
    pops (List.length (ys ++ xs)) q1
    = Ok (map (fun y => RPop y None) (ys ++ xs), q2) /\
    length q2 = 0.
Proof.
  intros Hinv Hpops Hempty Hpushes Hfits.
  destruct (pops_ok_inv ys q q0 Hinv Hpops) as (_ & Hys).
  rewrite (contents_empty q0 Hempty), app_nil_r in Hys.
  destruct (pushes_ok_inv xs q q1 Hinv Hpushes Hfits) as (Hinv1 & Hc1 & _).
  rewrite Hys in Hc1.
  destruct (pops_contents (ys ++ xs) q1 Hinv1 Hc1) as (q2 & Hrun & _ & Hlen).
  by exists q2.
Qed.

(** C2 (growth of an unbounded queue).  On a full unbounded queue
    whose capacity is within [fits], so that its double is an [int],
    [expand] allocates a slice of twice the capacity and fills it with
    the segment [items[front:]] followed by the segment
    [items[:front]], sets [front] to 0 and keeps [length]; slot [i] of
    the new slice, for [i < length], is the [i]-th live element of the
    ring; [Push] then stores the item in slot [length].  On a new
    unbounded queue of capacity 2, after Push(a), Push(b), Pop, Push(c),
    Push(d), where the last push grows the slice with [front = 1], three
    pops return b, c, d. *)
Theorem unbounded_growth q item a b c d :
  inv q -> bounded q = false -> length q = cap (items q) -> fits q ->
  let f := Z.to_nat (front q) in
  let grown := (drop f (items q) ++ take f (items q))
               ++ replicate (Z.to_nat (cap (items q))) zero in
  expand q = Ok (tt, {| items := grown; front := 0;
                        length := length q; bounded := false |}) /\
  cap grown = 2 * cap (items q) /\
  (forall i, 0 <= i < length q ->
     grown !! Z.to_nat i
     = items q !! Z.to_nat ((front q + i) mod cap (items q))) /\
  Push item q = Ok (None, {| items := <[Z.to_nat (length q) := item]> grown;
                             front := 0; length := length q + 1;
                             bounded := false |}) /\
  exists q0 q1 q2,
    NewUnboundedQueue 2 = Ok q0 /\
    run [OpPush a; OpPush b; OpPop; OpPush c; OpPush d] q0
    = Ok ([RPush None; RPush None; RPop a None; RPush None; RPush None], q1) /\
    pops 3 q1 = Ok ([RPop b None; RPop c None; RPop d None], q2).
Proof.
  intros Hinv Hb Hfull Hfits f grown.
  pose proof Hinv as [Hc Hf Hl].
  split_and!.
  - rewrite expand_full by done. by rewrite Hb.
  - unfold grown, f. rewrite !cap_app, cap_replicate. unfold cap in *.
    rewrite length_drop, length_take. lia.
  - intros i Hi. unfold grown, f, cap in *.
    rewrite grown_lookup by lia. by rewrite !Z2Nat.id by lia.
  - by apply Push_grow.
  - eexists _, _, _. split_and!; [reflexivity | vm_compute; reflexivity ..].
Qed.

(** C3 (overflow of a bounded queue).  A bounded queue built with
    capacity [K >= 1] has capacity [K]; [K] pushes in a row all return
    nil, after which [Length] is [K] and one more [Push] returns
    [ErrQueueFull]; and on every bounded queue with [length] equal to
    the capacity, [Push] returns [ErrQueueFull] and leaves the queue as
    it was, field by field. *)
Theorem bounded_overflow K xs item q :
  1 <= K <= GoInt.max_int -> Z.of_nat (List.length xs) = K ->
  bounded q = true -> length q = cap (items q) ->
  (exists q0 qK,
     NewBoundedQueue K = Ok q0 /\ cap (items q0) = K /\
     pushes xs q0 = Ok (map (fun _ => RPush None) xs, qK) /\
     Length qK = Ok (K, qK) /\
     Push item qK = Ok (Some ErrQueueFull, qK)) /\
  Push item q = Ok (Some ErrQueueFull, q).
Proof.
  intros HK Hxs Hb Hfull. split; [| by apply Push_full_bounded].
  destruct (new_queue_inv K {| items := replicate (Z.to_nat K) zero;
                               front := 0; length := 0; bounded := true |})
    as (Hinv0 & Hf0 & Hl0 & Hcap0).
  { int_lia. }
  { left. rewrite new_bounded_ok by lia.
    destruct (Z.eqb_spec K 0); [lia | done]. }
  destruct (Z.eqb_spec K 0); [lia |].
  eexists. destruct (pushes_room xs _ Hinv0) as (qK & Hrun & _ & Hlen & _ & Hcap & HbK).
  { rewrite Hl0, Hcap0. lia. }
  { rewrite Hf0, Hl0. lia. }
  exists qK. split_and!.
  - unfold NewBoundedQueue. rewrite new_bounded_ok by lia.
    destruct (Z.eqb_spec K 0); [lia | done].
  - done.
  - done.
  - unfold Length. run_monad. rewrite Hlen, Hl0. do 2 f_equal. lia.
  - apply Push_full_bounded; [| done]. rewrite Hlen, Hcap, Hl0, Hcap0. lia.
Qed.

(** C4 (empty queue).  On a queue with [length = 0], which a queue
    just returned by either constructor is, for any capacity, [Pop] and
    [Peek] both return the zero value of the element type together with
    [ErrQueueEmpty], and the queue they leave is the queue they found:
    no field has changed and [length] is still 0. *)
Theorem empty_queue_contract capacity q :
  length q = 0 \/
  NewBoundedQueue capacity = Ok q \/ NewUnboundedQueue capacity = Ok q ->
  length q = 0 /\
  Pop q = Ok ((zero, Some ErrQueueEmpty), q) /\
  Peek q = Ok ((zero, Some ErrQueueEmpty), q).
Proof.
  intros H.
  assert (Hlen : length q = 0).
  { destruct H as [? | H]; [done |]. by apply (new_queue_length capacity). }
  split_and!; [done | by apply Pop_empty | by apply Peek_empty].
Qed.

(** C5 (length accounting).  Start from the queue returned by either
    constructor and perform any sequence of calls of [Push], [Pop],
    [Peek] and [Length].  If [N] of the pushes and [M] of the pops
    returned nil, [Length] now returns [N - M], and that number is not
    negative. *)
Theorem length_accounting capacity q0 ops rs q :
  GoInt.in_range capacity ->
  NewBoundedQueue capacity = Ok q0 \/ NewUnboundedQueue capacity = Ok q0 ->
  run ops q0 = Ok (rs, q) ->
  Length q = Ok (count_pushes rs - count_pops rs, q) /\
  0 <= count_pushes rs - count_pops rs.
Proof.
  intros Hc Hnew Hrun.
  destruct (new_queue_inv capacity q0 Hc Hnew) as (Hinv0 & _ & Hl0 & _).
  destruct (run_inv ops q0 rs q Hinv0 Hrun) as ([_ _ Hl] & _ & _ & _ & Hlen).
  rewrite Hl0, Z.add_0_l in Hlen.
  unfold Length. run_monad. rewrite Hlen. split; [done | lia].
Qed.

(** C6 (state invariant).  In every state reached through the
    interface [0 <= length <= capacity].  A call made in such a state
    returns a state in which this holds again, whose capacity is the old
    one or, for an unbounded queue only, twice the old one, and whose
    kind is unchanged; over any sequence of calls the capacity never
    decreases and the capacity of a bounded queue stays what it was.
    Within [fits] every call returns. *)
Theorem state_invariant q :
  reachable q ->
  0 <= length q <= cap (items q) /\
  (forall o r q',
     run_op o q = Ok (r, q') ->
     0 <= length q' <= cap (items q') /\
     (cap (items q') = cap (items q) \/
      bounded q = false /\ cap (items q') = 2 * cap (items q)) /\
     bounded q' = bounded q) /\
  (forall ops rs q',
     run ops q = Ok (rs, q') ->
     0 <= length q' <= cap (items q') /\
     cap (items q) <= cap (items q') /\
     (bounded q = true -> cap (items q') = cap (items q))) /\
  (fits q -> forall o, exists r q', run_op o q = Ok (r, q')).
Proof.
  intros Hreach. pose proof (reachable_inv q Hreach) as Hinv.
  split; [| split; [| split]].
  - by destruct Hinv.
  - intros o r q' Hop.
    destruct (run_op_inv o q r q' Hinv Hop) as ([_ _ ?] & ? & ? & _).
    done.
  - intros ops rs q' Hrun.
    destruct (run_inv ops q rs q' Hinv Hrun) as ([_ _ ?] & _ & ? & ? & _).
    done.
  - intros Hfits o. by apply run_op_total.
Qed.

(** C7 (pushing on an unbounded queue).  In every reachable state of
    an unbounded queue [Push] never returns an error, for any item; and
    it returns nil, having added the item, whenever the capacity is
    within [fits], that is whenever the slice that growth asks for can
    be allocated. *)
Theorem unbounded_push_total q item :
  reachable q -> bounded q = false ->
  (forall e q', Push item q = Ok (e, q') -> e = None) /\
  (fits q ->
   exists q', Push item q = Ok (None, q') /\ length q' = length q + 1).
Proof.
  intros Hreach Hb. pose proof (reachable_inv q Hreach) as Hinv. split.
  - intros e q' HPush.
    destruct (Push_inv q item e q' Hinv HPush)
      as (_ & _ & [(_ & _ & ? & _) | (? & _)]); [congruence | done].
  - intros Hfits.
    destruct (Push_step q item Hinv Hfits) as (q' & ? & _ & _ & ? & _);
      [done | by exists q'].
Qed.

(** C8 (Peek is idempotent and pure).  On a queue that is not empty,
    any number [n] of calls of [Peek] in a row all return the element in
    slot [front] with a nil error, and the queue after them is the queue
    before them, field by field, so that [Length] returns what it
    returned before. *)
Theorem peek_idempotent q n :
  inv q -> 0 < length q ->
  exists x,
    items q !! Z.to_nat (front q) = Some x /\
    peeks n q = Ok (replicate n (RPeek x None), q) /\
    run (replicate n OpPeek ++ [OpLength]) q
    = Ok (replicate n (RPeek x None) ++ [RLength (length q)], q).
Proof.
  intros Hinv Hpos.
  destruct (Peek_nonempty q Hinv Hpos) as (x & Hx & HPeek).
  pose proof (peeks_nonempty n q x HPeek) as Hpeeks.
  exists x. split_and!; [done | done |].
  unfold peeks in Hpeeks. by rewrite (run_app _ _ _ _ _ Hpeeks).
Qed.

(** C9 (default capacity).  Both constructors, given 0, build a queue
    on a slice of capacity 2; given [c >= 1] they build a queue on a
    slice of capacity exactly [c]; and no reachable queue has
    capacity 0. *)
Theorem default_capacity c q :
  1 <= c -> reachable q ->
  (exists qb qu,
     NewBoundedQueue 0 = Ok qb /\ cap (items qb) = 2 /\
     NewUnboundedQueue 0 = Ok qu /\ cap (items qu) = 2) /\
  (exists qb qu,
     NewBoundedQueue c = Ok qb /\ cap (items qb) = c /\
     NewUnboundedQueue c = Ok qu /\ cap (items qu) = c) /\
  cap (items q) <> 0.
Proof.
  intros Hc Hreach. split_and!.
  - by eexists _, _.
  - unfold NewBoundedQueue, NewUnboundedQueue.
    rewrite new_bounded_ok, new_unbounded_ok by lia.
    destruct (Z.eqb_spec c 0); [lia |].
    eexists _, _. split_and!; [done | | done |]; step;
      rewrite cap_replicate; lia.
  - destruct (reachable_inv q Hreach) as [? _ _]. lia.
Qed.

Lemma make_slice_at_ok elem_size n :
  0 <= n -> elem_size * n <= maxAlloc ->
  make_slice_at elem_size n = Ok (replicate (Z.to_nat n) zero).
Proof.
  intros Hn Hsize. unfold make_slice_at.
  destruct (Z.ltb_spec n 0); [lia |].
  destruct (Z.ltb_spec maxAlloc (elem_size * n)); [lia | done].
Qed.

Lemma make_slice_at_panic elem_size n :
  n < 0 \/ maxAlloc < elem_size * n ->
  make_slice_at elem_size n = Panic MakeSliceLenOutOfRange.
Proof.
  intros Hn. unfold make_slice_at.
  destruct (Z.ltb_spec n 0); [done |].
  destruct (Z.ltb_spec maxAlloc (elem_size * n)); [done | lia].
Qed.

(** At size 0 the check of the size never fails. *)
Lemma make_slice_at_zero n : make_slice_at 0 n = make_slice n.
Proof.
  unfold make_slice_at, make_slice, maxAlloc.
  destruct (Z.ltb_spec n 0); [done |].
  destruct (Z.ltb_spec 281474976710656 (0 * n)); [lia | done].
Qed.

(** C10 (what construction requires), as the code has it.  Let [n] be
    the length that the constructors give to [make]: the capacity
    argument [c], or 2 for [c = 0].  For every [c >= 0] whose slice of
    [n] elements of [elem_size] bytes does not exceed [maxAlloc], both
    constructors return a queue, the one that the constructors without
    the check return; for every [c < 0], and for every [c] whose slice
    exceeds [maxAlloc], both panic in [make] with "makeslice: len out of
    range". *)
Theorem construction_precondition elem_size c :
  (0 <= c ->
   elem_size * (if c =? 0 then defaultRingBufferQueueCapacity else c)
   <= maxAlloc ->
   exists qb qu,
     NewBoundedQueue_at elem_size c = Ok qb /\
     NewUnboundedQueue_at elem_size c = Ok qu /\
     NewBoundedQueue c = Ok qb /\ NewUnboundedQueue c = Ok qu) /\
  (c < 0 \/
   maxAlloc
   < elem_size * (if c =? 0 then defaultRingBufferQueueCapacity else c) ->
   NewBoundedQueue_at elem_size c = Panic MakeSliceLenOutOfRange /\
   NewUnboundedQueue_at elem_size c = Panic MakeSliceLenOutOfRange).
Proof.
  unfold NewBoundedQueue_at, NewUnboundedQueue_at,
    newBoundedRingBufferQueue_at, newUnboundedRingBufferQueue_at,
    NewBoundedQueue, NewUnboundedQueue.
  split.
  - intros Hc Hsize. rewrite new_bounded_ok, new_unbounded_ok by done.
    rewrite make_slice_at_ok; [by eexists _, _ | | done].
    unfold defaultRingBufferQueueCapacity. destruct (c =? 0); lia.
  - intros Hc. rewrite make_slice_at_panic; [done |].
    destruct Hc as [Hc | Hc]; [| by right].
    left. destruct (Z.eqb_spec c 0); lia.
Qed.

(** ** Further properties of the code *)

Lemma Peek_head q x l :
  inv q -> contents q = x :: l -> Peek q = Ok ((x, None), q).
Proof.
  intros Hinv Hl.
  assert (Hpos : 0 < length q).
  { rewrite <- (contents_length q Hinv), Hl. simpl. lia. }
  destruct (Peek_nonempty q Hinv Hpos) as (y & Hy & HPeek).
  destruct (Pop_nonempty q Hinv Hpos) as (y' & Hy' & HPop).
  destruct (Pop_step q Hinv Hpos) as (z & q' & HPop' & _ & Hc & _).
  rewrite HPop in HPop'. injection HPop' as <- _.
  rewrite Hl in Hc. injection Hc as -> _. congruence.
Qed.

Lemma limit_run_op o q r q1 :
  inv q -> run_op o q = Ok (r, q1) -> limit q1 = limit q.
Proof.
  intros Hinv Hop.
  destruct (run_op_inv o q r q1 Hinv Hop) as (_ & Hb & Hcap & _).
  unfold limit. rewrite Hb. destruct (bounded q); [| done].
  destruct Hcap as [-> | [? _]]; done.
Qed.

(** One call, told on the list of live elements. *)
Lemma run_op_list o q r q1 :
  inv q -> fits q -> run_op o q = Ok (r, q1) ->
  list_op (limit q) o (contents q) = (r, contents q1).
Proof.
  intros Hinv Hfits. pose proof (contents_length q Hinv) as Hlen.
  destruct o as [item | | |].
  - rewrite run_op_push. simpl. unfold limit, list_full.
    destruct (decide (length q = cap (items q) /\ bounded q = true))
      as [[Hfull Hb] | Hroom].
    + rewrite Push_full_bounded by done. intros [= <- <-].
      rewrite Hb. destruct (Z.eqb_spec (Z.of_nat (List.length (contents q)))
                                       (cap (items q))); [done | lia].
    + destruct (Push_step q item Hinv Hfits) as (q' & -> & _ & Hc & _).
      { intros Hfull. destruct (bounded q); [| done]. by destruct Hroom. }
      intros [= <- <-]. rewrite Hc. destruct (bounded q); [| done].
      destruct (Z.eqb_spec (Z.of_nat (List.length (contents q)))
                           (cap (items q))); [| done].
      destruct Hroom. split; [lia | done].
  - rewrite run_op_pop. simpl.
    destruct (decide (length q = 0)) as [Hempty | Hne].
    + rewrite Pop_empty by done. intros [= <- <-].
      by rewrite (contents_empty q Hempty).
    + destruct (Pop_step q Hinv) as (x & q' & -> & _ & Hc & _).
      { destruct Hinv. lia. }
      intros [= <- <-]. by rewrite Hc.
  - rewrite run_op_peek. simpl.
    destruct (contents q) as [| y l] eqn:Hl.
    + rewrite Peek_empty by (simpl in Hlen; lia). intros [= <- <-].
      by rewrite Hl.
    + rewrite (Peek_head q y l Hinv Hl). intros [= <- <-]. by rewrite Hl.
  - simpl. unfold Length. run_monad. intros [= <- <-]. by rewrite Hlen.
Qed.

(** X1 (the queue is a FIFO list).  Whatever sequence of calls of
    [Push], [Pop], [Peek] and [Length] a client makes on a valid queue,
    every call returns what the same call returns on the list of live
    elements, oldest first, and the live elements at the end are that
    list at the end: pushes append, pops and peeks read the head, a
    bounded queue refuses exactly when the list has [cap] elements, and
    growth and wrap-around are invisible.  The capacity reached is
    within [fits]. *)
Theorem queue_refines_list ops q rs q' :
  inv q -> run ops q = Ok (rs, q') -> fits q' ->
  list_run (limit q) ops (contents q) = (rs, contents q').
Proof.
  revert q rs. induction ops as [| o ops IH]; intros q rs Hinv.
  - by intros [= <- <-] _.
  - rewrite run_cons.
    destruct (run_op o q) as [[r q1] |] eqn:Hop; [| done].
    destruct (run ops q1) as [[rs1 q2] |] eqn:Hrun; [| done].
    intros [= <- <-] Hfits.
    destruct (run_op_inv o q r q1 Hinv Hop) as (Hinv1 & _ & Hcap & _).
    destruct (run_inv ops q1 rs1 q2 Hinv1 Hrun) as (_ & _ & Hle & _).
    assert (Hfits1 : fits q1) by (unfold fits in *; lia).
    assert (Hfits0 : fits q).
    { destruct Hinv as [Hc _ _]. unfold fits in *.
      destruct Hcap as [? | [_ ?]]; lia. }
    simpl. rewrite (run_op_list o q r q1 Hinv Hfits0 Hop).
    rewrite <- (limit_run_op o q r q1 Hinv Hop).
    by rewrite (IH q1 rs1 Hinv1 Hrun Hfits).
Qed.

Lemma expand_room q : length q < cap (items q) -> expand q = Ok (tt, q).
Proof.
  intros H. unfold expand. run_monad.
  destruct (Z.ltb_spec (length q) (cap (items q))); [done | lia].
Qed.

(** X2 ([expand] keeps the live elements).  On a valid queue within
    [fits], [expand] returns; the live elements, their order, [length]
    and the kind of the queue are what they were.  With room left it
    does nothing at all; on a full queue, of either kind since it does
    not look at [bounded], it doubles the capacity and sets [front]
    to 0. *)
Theorem expand_preserves q :
  inv q -> fits q ->
  exists q',
    expand q = Ok (tt, q') /\ inv q' /\
    contents q' = contents q /\
    length q' = length q /\ bounded q' = bounded q /\
    (length q < cap (items q) -> q' = q) /\
    (length q = cap (items q) ->
     front q' = 0 /\ cap (items q') = 2 * cap (items q)).
Proof.
  intros Hinv Hfits.
  destruct (decide (length q = cap (items q))) as [Hfull | Hroom].
  - eexists. split; [by apply expand_full |].
    destruct Hinv as [Hc Hf Hl]. unfold fits in Hfits.
    set (rot := drop _ _ ++ take _ _).
    assert (Hrot : rot = rotate (Z.to_nat (front q)) (items q)).
    { unfold rot. rewrite rotate_front; [done |]. unfold cap in *. lia. }
    assert (Hcap : cap (rot ++ replicate (Z.to_nat (cap (items q))) zero)
                   = 2 * cap (items q)).
    { rewrite cap_app, cap_replicate, Hrot, cap_rotate. lia. }
    split_and!; step; rewrite ?Hcap; try done; try lia.
    + split; step; rewrite ?Hcap; lia.
    + unfold contents. step. rewrite rotate_0, <- Hrot.
      rewrite take_app_le; [done |].
      rewrite Hrot, length_rotate. unfold cap in *. lia.
  - assert (Hlt : length q < cap (items q)) by (destruct Hinv; lia).
    exists q. split; [by apply expand_room |].
    split_and!; done.
Qed.

(** X3 ([Pop] leaves the storage alone).  A [Pop] that returns an
    element keeps the slice as it is: nothing is reallocated or shrunk,
    and the slot it read still holds the element it returned; only
    [front], which moves one slot on around the ring, and [length]
    change. *)
Theorem pop_keeps_storage q x q' :
  inv q -> Pop q = Ok ((x, None), q') ->
  items q' = items q /\
  items q' !! Z.to_nat (front q) = Some x /\
  front q' = (front q + 1) mod cap (items q) /\
  length q' = length q - 1 /\
  bounded q' = bounded q.
Proof.
  intros Hinv HPop.
  destruct (Pop_inv q x None q' Hinv HPop)
    as (_ & _ & _ & [(? & _) | (_ & _ & Hpos)]); [done |].
  destruct (Pop_nonempty q Hinv Hpos) as (y & Hy & HPop').
  rewrite HPop in HPop'. injection HPop' as -> ->. by step.
Qed.

Lemma ring_back f c :
  0 <= f < c -> ((f + 1) mod c + (c - 1)) mod c = f.
Proof.
  intros Hf. rewrite Zplus_mod_idemp_l.
  replace (f + 1 + (c - 1)) with (f + 1 * c) by lia.
  rewrite Z_mod_plus_full. apply Z.mod_small. lia.
Qed.

(** X4 (a full queue as a sliding window).  On a full valid queue of
    either kind, a [Pop] followed by a [Push] returns the oldest element
    and stores the new item in the slot just vacated: no growth happens,
    the slice differs from the old one in that slot only, the queue is
    full again, and the live elements are the old ones without the first,
    followed by the new item. *)
Theorem pop_push_reuses_slot q item :
  inv q -> fits q -> length q = cap (items q) ->
  exists y q1 q2,
    Pop q = Ok ((y, None), q1) /\
    Push item q1 = Ok (None, q2) /\
    items q2 = <[Z.to_nat (front q) := item]> (items q) /\
    length q2 = cap (items q2) /\
    bounded q2 = bounded q /\
    contents q = y :: contents q1 /\
    contents q2 = contents q1 ++ [item].
Proof.
  intros Hinv Hfits Hfull. pose proof Hinv as [Hc Hf Hl].
  assert (Hpos : 0 < length q) by lia.
  destruct (Pop_nonempty q Hinv Hpos) as (y & Hy & HPop).
  destruct (Pop_step q Hinv Hpos) as (y' & q1 & HPop' & Hinv1 & Hcont & _).
  rewrite HPop in HPop'. injection HPop' as <- <-.
  set (q1 := {| items := items q |}) in *.
  assert (Hfits1 : fits q1) by done.
  assert (Hmod : 0 <= (front q + 1) mod cap (items q) < cap (items q))
    by (apply Z.mod_pos_bound; lia).
  assert (HPush :
    Push item q1 =
      Ok (None,
          {| items := <[Z.to_nat (((front q + 1) mod cap (items q)
                                   + (length q - 1)) mod cap (items q))
                        := item]> (items q);
             front := (front q + 1) mod cap (items q);
             length := length q - 1 + 1;
             bounded := bounded q |})).
  { apply (Push_room q1 item Hinv1); unfold q1; step;
      [lia | unfold fits, GoInt.max_int in *; lia]. }
  destruct (Push_step q1 item Hinv1 Hfits1) as (q2 & HPush2 & _ & Hcont2 & _).
  { unfold q1. step. lia. }
  rewrite HPush in HPush2. injection HPush2 as <-.
  eexists y, q1, _. split_and!; [done | exact HPush | | | | done | done]; step.
  - by rewrite Hfull, ring_back by lia.
  - rewrite cap_insert. lia.
  - done.
Qed.

(** X5 (growth is lazy).  A call of [Push] that returns has changed the
    capacity only if the queue was unbounded and full, and then it has
    doubled it and moved the live elements to the start of the new slice
    ([front = 0]); in every other case, a queue with room or a bounded
    one, the capacity and [front] are what they were. *)
Theorem growth_only_when_full q item e q' :
  inv q -> Push item q = Ok (e, q') ->
  (bounded q = false /\ length q = cap (items q) /\
   cap (items q') = 2 * cap (items q) /\ front q' = 0)
  \/
  ((length q < cap (items q) \/ bounded q = true) /\
   cap (items q') = cap (items q) /\ front q' = front q).
Proof.
  intros Hinv.
  destruct (decide (length q = cap (items q))) as [Hfull | Hroom].
  - destruct (bounded q) eqn:Hb.
    + rewrite Push_full_bounded by done. intros [= <- <-].
      right. split_and!; [by right | done | done].
    + destruct (decide (fits q)) as [Hfits | Hfits].
      * rewrite Push_grow by done. intros [= <- <-]. left. step.
        destruct Hinv as [Hc Hf Hl].
        split_and!; [done | done | | done].
        rewrite cap_insert, !cap_app, cap_replicate. unfold cap in *.
        rewrite length_drop, length_take. lia.
      * by rewrite Push_overflow.
  - destruct Hinv as [Hc Hf Hl]. unfold Push. run_monad.
    destruct (Z.eqb_spec (length q) (cap (items q))); [done |]. step.
    unfold int_rem. destruct (Z.eqb_spec (cap (items q)) 0); [lia |].
    destruct (slice_set _ _ _) as [s' |] eqn:Hset; [| done]. step.
    intros [= <- <-]. apply slice_set_inv in Hset. step.
    right. split_and!; [left; lia | done | done].
Qed.

Lemma run_op_grow o q r q1 :
  inv q -> run_op o q = Ok (r, q1) ->
  cap (items q1) = cap (items q) \/
  cap (items q1) = 2 * cap (items q) /\ successful_push r = true.
Proof.
  intros Hinv. destruct o as [item | | |].
  - rewrite run_op_push.
    destruct (Push item q) as [[e q'] |] eqn:HPush; [| done].
    intros [= <- <-].
    destruct (Push_inv q item e q' Hinv HPush)
      as (_ & _ & [(_ & -> & _) | (-> & _ & [? | (_ & _ & ?)])]);
      [by left | by left | by right].
  - intros Hop. destruct (run_op_inv _ _ _ _ Hinv Hop) as (_ & _ & Hcap & Hlen).
    destruct Hcap as [? | [_ Hcap]]; [by left |].
    rewrite run_op_pop in Hop.
    destruct (Pop q) as [[[x e] q'] |] eqn:HPop; [| done].
    injection Hop as <- <-.
    destruct (Pop_inv q x e q' Hinv HPop) as (_ & _ & Hitems & _).
    left. by rewrite Hitems.
  - rewrite run_op_peek.
    destruct (Peek q) as [[[x e] q'] |] eqn:HPeek; [| done].
    intros [= <- <-]. apply Peek_inv in HPeek as ->. by left.
  - simpl. unfold Length. run_monad. intros [= <- <-]. by left.
Qed.

(** X6 (the capacity is the first one times a power of two).  Over any
    sequence of calls on a valid queue the capacity of the slice is
    multiplied by [2 ^ k], where the number [k] of doublings is at most
    the number of calls of [Push] that returned nil. *)
Theorem capacity_power_of_two ops q rs q' :
  inv q -> run ops q = Ok (rs, q') ->
  exists k : nat,
    cap (items q') = 2 ^ Z.of_nat k * cap (items q) /\
    Z.of_nat k <= count_pushes rs.
Proof.
  revert q rs. induction ops as [| o ops IH]; intros q rs Hinv.
  - intros [= <- <-]. exists 0%nat. unfold count_pushes. simpl. lia.
  - rewrite run_cons.
    destruct (run_op o q) as [[r q1] |] eqn:Hop; [| done].
    destruct (run ops q1) as [[rs1 q2] |] eqn:Hrun; [| done].
    intros [= <- <-].
    destruct (run_op_inv o q r q1 Hinv Hop) as (Hinv1 & _).
    destruct (IH q1 rs1 Hinv1 Hrun) as (k & Hk & Hle).
    rewrite count_pushes_cons.
    destruct (run_op_grow o q r q1 Hinv Hop) as [Hcap | [Hcap ->]].
    + exists k. rewrite Hk, Hcap. split; [done |].
      destruct (successful_push r); lia.
    + exists (S k). rewrite Hk, Hcap, Nat2Z.inj_succ, Z.pow_succ_r by lia.
      split; lia.
Qed.

Lemma read_op_total o q :
  inv q -> is_push o = false ->
  exists r q1, run_op o q = Ok (r, q1) /\ inv q1 /\ items q1 = items q.
Proof.
  intros Hinv Ho. destruct o as [item | | |]; [done | | |].
  - rewrite run_op_pop.
    destruct (decide (length q = 0)) as [Hempty | Hne].
    + rewrite Pop_empty by done. by eexists _, q.
    + destruct (Pop_step q Hinv) as (x & q' & -> & ? & _ & _ & ? & _).
      { destruct Hinv. lia. }
      by eexists _, q'.
  - rewrite run_op_peek.
    destruct (decide (length q = 0)) as [Hempty | Hne].
    + rewrite Peek_empty by done. by eexists _, q.
    + destruct (Peek_nonempty q Hinv) as (x & _ & ->).
      { destruct Hinv. lia. }
      by eexists _, q.
  - simpl. unfold Length. run_monad. by eexists _, q.
Qed.

(** X7 (reading never panics).  In every reachable state, of any
    capacity, a sequence of calls of [Pop], [Peek] and [Length] returns:
    no index is out of range and no remainder is taken by 0, on an empty
    queue as on a full one.  The slice it leaves is the slice it
    found. *)
Theorem reads_never_panic ops q :
  reachable q -> Forall (fun o => is_push o = false) ops ->
  exists rs q', run ops q = Ok (rs, q') /\ items q' = items q.
Proof.
  intros Hreach. pose proof (reachable_inv q Hreach) as Hinv. clear Hreach.
  revert q Hinv. induction ops as [| o ops IH]; intros q Hinv Hops.
  - by exists [], q.
  - inversion Hops as [| ? ? Ho Hops']; subst.
    destruct (read_op_total o q Hinv Ho) as (r & q1 & Hop & Hinv1 & Hitems).
    destruct (IH q1 Hinv1 Hops') as (rs & q' & Hrun & Hitems').
    exists (r :: rs), q'. rewrite run_cons, Hop, Hrun.
    split; [done | congruence].
Qed.

(** X8 ([Push] does not disturb the front).  If [Peek] returns [y] on
    a valid queue, then [Push] of any item returns, and [Peek] on the
    queue it leaves returns [y] again, whether the push was refused,
    stored in place, or moved every element to a new slice. *)
Theorem push_keeps_front q item y :
  inv q -> fits q -> Peek q = Ok ((y, None), q) ->
  exists e q', Push item q = Ok (e, q') /\ Peek q' = Ok ((y, None), q').
Proof.
  intros Hinv Hfits HPeek.
  assert (Hne : length q <> 0).
  { intros Hempty. by rewrite Peek_empty in HPeek. }
  destruct (contents q) as [| z l] eqn:Hl.
  { pose proof (contents_length q Hinv) as Hlen. rewrite Hl in Hlen.
    simpl in Hlen. lia. }
  rewrite (Peek_head q z l Hinv Hl) in HPeek. injection HPeek as ->.
  destruct (decide (length q = cap (items q) /\ bounded q = true))
    as [[Hfull Hb] | Hroom].
  - exists (Some ErrQueueFull), q. split; [by apply Push_full_bounded |].
    by apply (Peek_head q y l).
  - destruct (Push_step q item Hinv Hfits) as (q' & HPush & Hinv' & Hc & _).
    { intros Hfull. destruct (bounded q); [| done]. by destruct Hroom. }
    exists None, q'. split; [done |].
    apply (Peek_head q' y (l ++ [item]) Hinv'). by rewrite Hc, Hl.
Qed.

(** X9 (room in a bounded queue).  A valid bounded queue, in whatever
    state, accepts exactly as many more items as it has free slots:
    [cap - length] pushes in a row all return nil without moving [front]
    or touching the capacity, and the push after them returns
    [ErrQueueFull]. *)
Theorem bounded_room q xs item :
  inv q -> fits q -> bounded q = true ->
  length q + Z.of_nat (List.length xs) = cap (items q) ->
  exists q',
    pushes xs q = Ok (map (fun _ => RPush None) xs, q') /\
    front q' = front q /\ cap (items q') = cap (items q) /\
    Push item q' = Ok (Some ErrQueueFull, q').
Proof.
  intros Hinv Hfits Hb Hroom. pose proof Hinv as [Hc Hf Hl].
  destruct (pushes_room xs q Hinv) as (q' & Hrun & _ & Hlen & ? & Hcap & Hb').
  { lia. }
  { unfold fits in Hfits. lia. }
  exists q'. split_and!; [done | done | done |].
  apply Push_full_bounded; [lia | congruence].
Qed.

Lemma run_op_policy o q r q1 :
  bounded q = true -> run_op o q = Ok (r, q1) ->
  r <> RPush (Some ErrQueueFull) ->
  bounded q1 = true /\
  run_op o (with_bounded false q) = Ok (r, with_bounded false q1).
Proof.
  destruct q as [s f l b]. simpl. intros ->.
  destruct o as [item | | |]; unfold with_bounded; step.
  - rewrite !run_op_push. unfold Push. run_monad.
    destruct (l =? cap s).
    + step. intros [= <- <-] Hr. by destruct Hr.
    + step. destruct (int_rem _ _) as [back |]; [| done]. step.
      destruct (slice_set _ _ _) as [s' |]; [| done]. step.
      by intros [= <- <-] _.
  - rewrite !run_op_pop. unfold Pop, Peek. run_monad.
    destruct (l =? 0).
    + step. by intros [= <- <-] _.
    + destruct (slice_get _ _) as [x |]; [| done]. step.
      destruct (int_rem _ _) as [front' |]; [| done]. step.
      by intros [= <- <-] _.
  - rewrite !run_op_peek. unfold Peek. run_monad.
    destruct (l =? 0).
    + step. by intros [= <- <-] _.
    + destruct (slice_get _ _) as [x |]; [| done]. step.
      by intros [= <- <-] _.
  - simpl. unfold Length. run_monad. by intros [= <- <-] _.
Qed.

(** X10 (the two kinds differ in the overflow policy only).  Take any
    sequence of calls on a bounded queue, in any state, in which no
    [Push] was refused.  The same calls on the queue with the same slice,
    [front] and [length] but unbounded return the same results and leave
    the same slice, [front] and [length]. *)
Theorem bounded_unbounded_agree ops q rs q' :
  bounded q = true -> run ops q = Ok (rs, q') -> never_full rs ->
  run ops (with_bounded false q) = Ok (rs, with_bounded false q').
Proof.
  revert q rs. induction ops as [| o ops IH]; intros q rs Hb.
  - by intros [= <- <-] _.
  - rewrite !run_cons.
    destruct (run_op o q) as [[r q1] |] eqn:Hop; [| done].
    destruct (run ops q1) as [[rs1 q2] |] eqn:Hrun; [| done].
    intros [= <- <-] Hnever. inversion Hnever as [| ? ? Hr Hrs]; subst.
    destruct (run_op_policy o q r q1 Hb Hop Hr) as (Hb1 & ->).
    by rewrite (IH q1 rs1 Hb1 Hrun Hrs).
Qed.

(** X11 (growth is economical).  After any number of pushes in a row on
    a valid queue, the capacity is the one before them or at most
    [2 * (length - 1)]: the slice is never more than twice as large as
    what it holds, unless it has not grown at all. *)
Theorem growth_is_economical xs q rs q' :
  inv q -> pushes xs q = Ok (rs, q') ->
  length q <= length q' /\
  (cap (items q') = cap (items q) \/
   cap (items q') <= 2 * (length q' - 1)).
Proof.
  revert q rs. induction xs as [| x xs IH]; intros q rs Hinv.
  - intros [= <- <-]. split; [lia | by left].
  - unfold pushes in *. simpl map. rewrite run_cons, run_op_push.
    destruct (Push x q) as [[e q1] |] eqn:HPush; [| done].
    destruct (run _ q1) as [[rs1 q2] |] eqn:Hrun; [| done].
    intros [= <- <-].
    destruct (Push_inv q x e q1 Hinv HPush) as (Hinv1 & _ & Hcases).
    destruct (IH q1 rs1 Hinv1 Hrun) as (Hlen & Hcap).
    destruct Hcases as [(_ & -> & _) | (_ & Hlen1 & Hcap1)]; [done |].
    split; [lia |].
    destruct Hcap as [-> | Hcap]; [| by right].
    destruct Hcap1 as [-> | (_ & Hfull & ->)]; [by left | right; lia].
Qed.

(** X12 (an unbounded queue takes any number of items).  On a valid
    unbounded queue within [fits], with room in [int] for four times the
    elements it will hold, any number of pushes in a row all return nil,
    through as many doublings as it takes; afterwards the live elements
    are the old ones followed by the new items in order, and [Length]
    has grown by their number. *)
Theorem unbounded_accepts_all xs q :
  inv q -> fits q -> bounded q = false ->
  4 * (length q + Z.of_nat (List.length xs)) <= GoInt.max_int ->
  exists q',
    pushes xs q = Ok (map (fun _ => RPush None) xs, q') /\
    contents q' = contents q ++ xs /\
    length q' = length q + Z.of_nat (List.length xs) /\
    bounded q' = false.
Proof.
  revert q. induction xs as [| x xs IH]; intros q Hinv Hfits Hb Hbound.
  - exists q. simpl. rewrite app_nil_r. split_and!; [done | done | lia | done].
  - simpl List.length in Hbound.
    destruct (Push_step q x Hinv Hfits)
      as (q1 & HPush & Hinv1 & Hc1 & Hlen1 & Hb1 & Hcap1); [done |].
    assert (Hfits1 : fits q1).
    { unfold fits in *. destruct Hcap1 as [-> | [Hfull ->]]; [done | lia]. }
    destruct (IH q1 Hinv1 Hfits1) as (q' & Hrun & Hc & Hlen & Hb');
      [congruence | lia |].
    exists q'. unfold pushes in *. simpl map.
    rewrite run_cons, run_op_push, HPush, Hrun.
    split_and!; [done | | simpl List.length; lia | done].
    by rewrite Hc, Hc1, <- (assoc_L (++)).
Qed.

End RingBufferQueue.

Arguments OpPush {Element} item.
Arguments OpPop {Element}.
Arguments OpPeek {Element}.
Arguments OpLength {Element}.
Arguments RPush {Element} err.
Arguments RPop {Element} item err.
Arguments RPeek {Element} item err.
Arguments RLength {Element} n.
Arguments items {Element} r.
Arguments front {Element} r.
Arguments length {Element} r.
Arguments bounded {Element} r.
Arguments mkQueue {Element} items front length bounded.
Arguments cap {Element} s.
Arguments inv {Element} q.
Arguments fits {Element} q.
Arguments reachable {Element} zero q.
Arguments NewBoundedQueue {Element} zero capacity.
Arguments NewUnboundedQueue {Element} zero initialCapacity.
Arguments expand {Element} zero q.
Arguments Push {Element} zero item q.
Arguments Pop {Element} zero q.
Arguments Peek {Element} zero q.
Arguments Length {Element} q.
Arguments run {Element} zero ops q.
Arguments run_op {Element} zero o q.
Arguments pops {Element} zero n q.
Arguments peeks {Element} zero n q.
Arguments pushes {Element} zero xs q.
Arguments count_pushes {Element} rs.
Arguments count_pops {Element} rs.
Arguments contents {Element} q.
Arguments make_slice_at {Element} zero elem_size n.
Arguments NewBoundedQueue_at {Element} zero elem_size capacity.
Arguments NewUnboundedQueue_at {Element} zero elem_size initialCapacity.
Arguments limit {Element} q.
Arguments list_run {Element} zero lim ops l.
Arguments with_bounded {Element} b q.
Arguments never_full {Element} rs.
Arguments is_push {Element} o.

(** ** The theorems at work on a queue of integers *)

Ltac check_inv := split; unfold cap, GoInt.max_int; simpl; lia.
Ltac check_fits := unfold fits, cap, GoInt.max_int; simpl; lia.
Ltac check_int := unfold GoInt.in_range, GoInt.min_int, GoInt.max_int; lia.

(** A queue that wrapped ([front = 1]) and holds 2 takes 3 and 4, the
    second push growing it; the pops return 2, 3, 4. *)
Lemma fifo_order_witness :
  inv (mkQueue [1; 2] 1 1 false) /\
  pops 0 1 (mkQueue [1; 2] 1 1 false)
  = Ok ([RPop 2 None], mkQueue [1; 2] 0 0 false) /\
  pushes 0 [3; 4] (mkQueue [1; 2] 1 1 false)
  = Ok ([RPush None; RPush None], mkQueue [2; 3; 4; 0] 0 3 false) /\
  fits (mkQueue [2; 3; 4; 0] 0 3 false) /\
  exists q2,
    pops 0 3 (mkQueue [2; 3; 4; 0] 0 3 false)
    = Ok ([RPop 2 None; RPop 3 None; RPop 4 None], q2) /\
    length q2 = 0.
Proof.
  assert (H1 : inv (mkQueue [1; 2] 1 1 false)) by check_inv.
  assert (H2 : pops 0 (List.length [2]) (mkQueue [1; 2] 1 1 false)
               = Ok (map (fun y => RPop y None) [2], mkQueue [1; 2] 0 0 false))
    by reflexivity.
  assert (H3 : length (mkQueue [1; 2] 0 0 false) = 0) by reflexivity.
  assert (H4 : pushes 0 [3; 4] (mkQueue [1; 2] 1 1 false)
               = Ok (map (fun _ => RPush None) [3; 4],
                     mkQueue [2; 3; 4; 0] 0 3 false)) by reflexivity.
  assert (H5 : fits (mkQueue [2; 3; 4; 0] 0 3 false)) by check_fits.
  exact (conj H1 (conj H2 (conj H4 (conj H5
    (fifo_order Z 0 _ [2] [3; 4] _ _ H1 H2 H3 H4 H5))))).
Defined.

(** The full queue [3; 2] with [front = 1] grows to [2; 3; 0; 0]. *)
Lemma unbounded_growth_witness :
  inv (mkQueue [3; 2] 1 2 false) /\
  fits (mkQueue [3; 2] 1 2 false) /\
  expand 0 (mkQueue [3; 2] 1 2 false)
  = Ok (tt, mkQueue [2; 3; 0; 0] 0 2 false) /\
  Push 0 4 (mkQueue [3; 2] 1 2 false)
  = Ok (None, mkQueue [2; 3; 4; 0] 0 3 false).
Proof.
  assert (H1 : inv (mkQueue [3; 2] 1 2 false)) by check_inv.
  assert (H4 : fits (mkQueue [3; 2] 1 2 false)) by check_fits.
  pose proof (unbounded_growth Z 0 (mkQueue [3; 2] 1 2 false) 4 1 2 3 4
                H1 eq_refl eq_refl H4)
    as (Hexpand & _ & _ & HPush & _).
  exact (conj H1 (conj H4 (conj Hexpand HPush))).
Defined.

(** A bounded queue of capacity 3 takes three items and refuses a fourth. *)
Lemma bounded_overflow_witness :
  1 <= 3 <= GoInt.max_int /\
  (exists q0 qK,
     NewBoundedQueue 0 3 = Ok q0 /\ cap (items q0) = 3 /\
     pushes 0 [7; 8; 9] q0 = Ok ([RPush None; RPush None; RPush None], qK) /\
     Length qK = Ok (3, qK) /\
     Push 0 10 qK = Ok (Some ErrQueueFull, qK)) /\
  Push 0 10 (mkQueue [7; 8; 9] 2 3 true)
  = Ok (Some ErrQueueFull, mkQueue [7; 8; 9] 2 3 true).
Proof.
  assert (H1 : 1 <= 3 <= GoInt.max_int) by check_int.
  exact (conj H1
    (bounded_overflow Z 0 3 [7; 8; 9] 10 (mkQueue [7; 8; 9] 2 3 true)
       H1 eq_refl eq_refl eq_refl)).
Defined.

(** A new bounded queue of capacity 1 is empty. *)
Lemma empty_queue_contract_witness :
  NewBoundedQueue 0 1 = Ok (mkQueue [0] 0 0 true) /\
  length (mkQueue [0] 0 0 true) = 0 /\
  Pop 0 (mkQueue [0] 0 0 true)
  = Ok ((0, Some ErrQueueEmpty), mkQueue [0] 0 0 true) /\
  Peek 0 (mkQueue [0] 0 0 true)
  = Ok ((0, Some ErrQueueEmpty), mkQueue [0] 0 0 true).
Proof.
  assert (H1 : NewBoundedQueue 0 1 = Ok (mkQueue [0] 0 0 true)) by reflexivity.
  exact (conj H1
    (empty_queue_contract Z 0 1 (mkQueue [0] 0 0 true)
       (or_intror (or_introl H1)))).
Defined.

(** Four pushes and two pops on a new unbounded queue leave two elements. *)
Lemma length_accounting_witness :
  GoInt.in_range 2 /\
  NewUnboundedQueue 0 2 = Ok (mkQueue [0; 0] 0 0 false) /\
  run 0 [OpPush 1; OpPush 2; OpPop; OpPush 3; OpPush 4; OpPop; OpLength]
    (mkQueue [0; 0] 0 0 false)
  = Ok ([RPush None; RPush None; RPop 1 None; RPush None; RPush None;
         RPop 2 None; RLength 2], mkQueue [2; 3; 4; 0] 1 2 false) /\
  Length (mkQueue [2; 3; 4; 0] 1 2 false)
  = Ok (4 - 2, mkQueue [2; 3; 4; 0] 1 2 false).
Proof.
  assert (H1 : GoInt.in_range 2) by check_int.
  assert (H2 : NewUnboundedQueue 0 2 = Ok (mkQueue [0; 0] 0 0 false))
    by reflexivity.
  assert (H3 :
    run 0 [OpPush 1; OpPush 2; OpPop; OpPush 3; OpPush 4; OpPop; OpLength]
      (mkQueue [0; 0] 0 0 false)
    = Ok ([RPush None; RPush None; RPop 1 None; RPush None; RPush None;
           RPop 2 None; RLength 2], mkQueue [2; 3; 4; 0] 1 2 false))
    by reflexivity.
  exact (conj H1 (conj H2 (conj H3
    (proj1 (length_accounting Z 0 2 _ _ _ _ H1 (or_intror H2) H3))))).
Defined.

(** The invariant in the state after one push on a new bounded queue. *)
Lemma state_invariant_witness :
  reachable 0 (mkQueue [5; 0] 0 1 true) /\
  0 <= length (mkQueue [5; 0] 0 1 true)
    <= cap (items (mkQueue [5; 0] 0 1 true)).
Proof.
  assert (H1 : reachable 0 (mkQueue [5; 0] 0 1 true)).
  { apply (reach_op Z 0 (mkQueue [0; 0] 0 0 true) (OpPush 5) (RPush None));
      [| reflexivity].
    apply (reach_bounded Z 0 2); [check_int | reflexivity]. }
  exact (conj H1 (proj1 (state_invariant Z 0 _ H1))).
Defined.

(** A full unbounded queue takes one more item. *)
Lemma unbounded_push_total_witness :
  reachable 0 (mkQueue [1; 2] 0 2 false) /\
  fits (mkQueue [1; 2] 0 2 false) /\
  exists q',
    Push 0 3 (mkQueue [1; 2] 0 2 false) = Ok (None, q') /\ length q' = 2 + 1.
Proof.
  assert (H1 : reachable 0 (mkQueue [1; 2] 0 2 false)).
  { apply (reach_op Z 0 (mkQueue [1; 0] 0 1 false) (OpPush 2) (RPush None));
      [| reflexivity].
    apply (reach_op Z 0 (mkQueue [0; 0] 0 0 false) (OpPush 1) (RPush None));
      [| reflexivity].
    apply (reach_unbounded Z 0 2); [check_int | reflexivity]. }
  assert (H2 : fits (mkQueue [1; 2] 0 2 false)) by check_fits.
  exact (conj H1 (conj H2
    (proj2 (unbounded_push_total Z 0 _ 3 H1 eq_refl) H2))).
Defined.

(** Three peeks at a queue that holds 2 in slot 1. *)
Lemma peek_idempotent_witness :
  inv (mkQueue [1; 2] 1 1 false) /\
  0 < length (mkQueue [1; 2] 1 1 false) /\
  exists x,
    [1; 2] !! Z.to_nat 1 = Some x /\
    peeks 0 3 (mkQueue [1; 2] 1 1 false)
    = Ok (replicate 3 (RPeek x None), mkQueue [1; 2] 1 1 false) /\
    run 0 (replicate 3 OpPeek ++ [OpLength]) (mkQueue [1; 2] 1 1 false)
    = Ok (replicate 3 (RPeek x None) ++ [RLength 1],
          mkQueue [1; 2] 1 1 false).
Proof.
  assert (H1 : inv (mkQueue [1; 2] 1 1 false)) by check_inv.
  assert (H2 : 0 < length (mkQueue [1; 2] 1 1 false)) by (simpl; lia).
  exact (conj H1 (conj H2 (peek_idempotent Z 0 _ 3 H1 H2))).
Defined.

(** Capacity 5 for the argument 5, in a new queue that is reachable. *)
Lemma default_capacity_witness :
  1 <= 5 /\
  reachable 0 (mkQueue [0; 0] 0 0 true) /\
  (exists qb qu,
     NewBoundedQueue 0 5 = Ok qb /\ cap (items qb) = 5 /\
     NewUnboundedQueue 0 5 = Ok qu /\ cap (items qu) = 5) /\
  cap (items (mkQueue [0; 0] 0 0 true)) <> 0.
Proof.
  assert (H1 : 1 <= 5) by lia.
  assert (H2 : reachable 0 (mkQueue [0; 0] 0 0 true)).
  { apply (reach_bounded Z 0 0); [check_int | reflexivity]. }
  exact (conj H1 (conj H2 (proj2 (default_capacity Z 0 5 _ H1 H2)))).
Defined.

(** For elements of 8 bytes, capacity 3 is accepted and capacity -1
    panics. *)
Lemma construction_precondition_witness :
  (exists qb qu,
     NewBoundedQueue_at 0 8 3 = Ok qb /\ NewUnboundedQueue_at 0 8 3 = Ok qu /\
     NewBoundedQueue 0 3 = Ok qb /\ NewUnboundedQueue 0 3 = Ok qu) /\
  NewBoundedQueue_at 0 8 (-1) = Panic MakeSliceLenOutOfRange /\
  NewUnboundedQueue_at 0 8 (-1) = Panic MakeSliceLenOutOfRange.
Proof.
  split.
  - apply (proj1 (construction_precondition Z 0 8 3)); [lia |].
    unfold maxAlloc. simpl. lia.
  - apply (proj2 (construction_precondition Z 0 8 (-1))). left. lia.
Defined.

(** [NewBoundedQueue[int](1 << 62)] and [NewUnboundedQueue[int](1 << 62)]:
    the capacity is not negative, and [make] panics, a slice of
    [2^62] elements of 8 bytes being larger than [maxAlloc]. *)
Lemma construction_precondition_counterexample :
  0 <= 4611686018427387904 /\
  NewBoundedQueue_at 0 8 4611686018427387904
  = Panic MakeSliceLenOutOfRange /\
  NewUnboundedQueue_at 0 8 4611686018427387904
  = Panic MakeSliceLenOutOfRange.
Proof. split; [lia | split; reflexivity]. Qed.

(** Two pushes, the second one growing the slice, then a pop, a peek and
    the length, on a queue that holds 2: the list [2] tells the same. *)
Lemma queue_refines_list_witness :
  inv (mkQueue [1; 2] 1 1 false) /\
  run 0 [OpPush 3; OpPush 4; OpPop; OpPeek; OpLength] (mkQueue [1; 2] 1 1 false)
  = Ok ([RPush None; RPush None; RPop 2 None; RPeek 3 None; RLength 2],
        mkQueue [2; 3; 4; 0] 1 2 false) /\
  fits (mkQueue [2; 3; 4; 0] 1 2 false) /\
  list_run 0 None [OpPush 3; OpPush 4; OpPop; OpPeek; OpLength] [2]
  = ([RPush None; RPush None; RPop 2 None; RPeek 3 None; RLength 2], [3; 4]).
Proof.
  assert (H1 : inv (mkQueue [1; 2] 1 1 false)) by check_inv.
  assert (H2 :
    run 0 [OpPush 3; OpPush 4; OpPop; OpPeek; OpLength] (mkQueue [1; 2] 1 1 false)
    = Ok ([RPush None; RPush None; RPop 2 None; RPeek 3 None; RLength 2],
          mkQueue [2; 3; 4; 0] 1 2 false)) by reflexivity.
  assert (H3 : fits (mkQueue [2; 3; 4; 0] 1 2 false)) by check_fits.
  exact (conj H1 (conj H2 (conj H3 (queue_refines_list Z 0 _ _ _ _ H1 H2 H3)))).
Defined.

(** Expanding the full queue [3; 2] with [front = 1] keeps 2, 3. *)
Lemma expand_preserves_witness :
  inv (mkQueue [3; 2] 1 2 false) /\ fits (mkQueue [3; 2] 1 2 false) /\
  exists q',
    expand 0 (mkQueue [3; 2] 1 2 false) = Ok (tt, q') /\
    contents q' = [2; 3] /\ cap (items q') = 4.
Proof.
  assert (H1 : inv (mkQueue [3; 2] 1 2 false)) by check_inv.
  assert (H2 : fits (mkQueue [3; 2] 1 2 false)) by check_fits.
  destruct (expand_preserves Z 0 _ H1 H2)
    as (q' & Hexp & _ & Hc & _ & _ & _ & Hfull).
  destruct (Hfull eq_refl) as [_ Hcap].
  exact (conj H1 (conj H2 (ex_intro _ q' (conj Hexp (conj Hc Hcap))))).
Defined.

(** The popped 2 is still in slot 1. *)
Lemma pop_keeps_storage_witness :
  inv (mkQueue [3; 2] 1 2 true) /\
  Pop 0 (mkQueue [3; 2] 1 2 true) = Ok ((2, None), mkQueue [3; 2] 0 1 true) /\
  [3; 2] !! Z.to_nat 1 = Some 2.
Proof.
  assert (H1 : inv (mkQueue [3; 2] 1 2 true)) by check_inv.
  assert (H2 : Pop 0 (mkQueue [3; 2] 1 2 true)
               = Ok ((2, None), mkQueue [3; 2] 0 1 true)) by reflexivity.
  exact (conj H1 (conj H2
    (proj1 (proj2 (pop_keeps_storage Z 0 _ 2 _ H1 H2))))).
Defined.

(** Popping 2 from the full bounded queue [3; 2] and pushing 4 gives
    [3; 4]. *)
Lemma pop_push_reuses_slot_witness :
  inv (mkQueue [3; 2] 1 2 true) /\ fits (mkQueue [3; 2] 1 2 true) /\
  exists y q1 q2,
    Pop 0 (mkQueue [3; 2] 1 2 true) = Ok ((y, None), q1) /\
    Push 0 4 q1 = Ok (None, q2) /\
    items q2 = [3; 4].
Proof.
  assert (H1 : inv (mkQueue [3; 2] 1 2 true)) by check_inv.
  assert (H2 : fits (mkQueue [3; 2] 1 2 true)) by check_fits.
  destruct (pop_push_reuses_slot Z 0 _ 4 H1 H2 eq_refl)
    as (y & q1 & q2 & HPop & HPush & Hitems & _).
  exact (conj H1 (conj H2
    (ex_intro _ y (ex_intro _ q1 (ex_intro _ q2
       (conj HPop (conj HPush Hitems))))))).
Defined.

(** The push of 4 on the full unbounded queue [3; 2] doubles the
    capacity. *)
Lemma growth_only_when_full_witness :
  inv (mkQueue [3; 2] 1 2 false) /\
  Push 0 4 (mkQueue [3; 2] 1 2 false)
  = Ok (None, mkQueue [2; 3; 4; 0] 0 3 false) /\
  (cap [2; 3; 4; 0] = 2 * cap [3; 2] \/ cap [2; 3; 4; 0] = cap [3; 2]).
Proof.
  assert (H1 : inv (mkQueue [3; 2] 1 2 false)) by check_inv.
  assert (H2 : Push 0 4 (mkQueue [3; 2] 1 2 false)
               = Ok (None, mkQueue [2; 3; 4; 0] 0 3 false)) by reflexivity.
  destruct (growth_only_when_full Z 0 _ 4 _ _ H1 H2)
    as [(_ & _ & Hcap & _) | (_ & Hcap & _)].
  - exact (conj H1 (conj H2 (or_introl Hcap))).
  - exact (conj H1 (conj H2 (or_intror Hcap))).
Defined.

(** Five pushes take a new queue of capacity 2 to capacity 8. *)
Lemma capacity_power_of_two_witness :
  inv (mkQueue [0; 0] 0 0 false) /\
  run 0 [OpPush 1; OpPush 2; OpPush 3; OpPush 4; OpPush 5]
    (mkQueue [0; 0] 0 0 false)
  = Ok ([RPush None; RPush None; RPush None; RPush None; RPush None],
        mkQueue [1; 2; 3; 4; 5; 0; 0; 0] 0 5 false) /\
  exists k : nat,
    cap [1; 2; 3; 4; 5; 0; 0; 0] = 2 ^ Z.of_nat k * cap [0; 0] /\
    Z.of_nat k <= 5.
Proof.
  assert (H1 : inv (mkQueue [0; 0] 0 0 false)) by check_inv.
  assert (H2 :
    run 0 [OpPush 1; OpPush 2; OpPush 3; OpPush 4; OpPush 5]
      (mkQueue [0; 0] 0 0 false)
    = Ok ([RPush None; RPush None; RPush None; RPush None; RPush None],
          mkQueue [1; 2; 3; 4; 5; 0; 0; 0] 0 5 false)) by reflexivity.
  exact (conj H1 (conj H2 (capacity_power_of_two Z 0 _ _ _ _ H1 H2))).
Defined.

(** A peek, two pops and the length on a queue that holds one element. *)
Lemma reads_never_panic_witness :
  reachable 0 (mkQueue [5; 0] 0 1 true) /\
  exists rs q',
    run 0 [OpPeek; OpPop; OpPop; OpLength] (mkQueue [5; 0] 0 1 true)
    = Ok (rs, q') /\
    items q' = [5; 0].
Proof.
  assert (H1 : reachable 0 (mkQueue [5; 0] 0 1 true)).
  { apply (reach_op Z 0 (mkQueue [0; 0] 0 0 true) (OpPush 5) (RPush None));
      [| reflexivity].
    apply (reach_bounded Z 0 2); [check_int | reflexivity]. }
  assert (H2 : Forall (fun o : op Z => is_push o = false)
                 [OpPeek; OpPop; OpPop; OpLength])
    by (repeat constructor).
  exact (conj H1 (reads_never_panic Z 0 _ _ H1 H2)).
Defined.

(** The front element 2 survives the push that grows the slice. *)
Lemma push_keeps_front_witness :
  inv (mkQueue [3; 2] 1 2 false) /\ fits (mkQueue [3; 2] 1 2 false) /\
  Peek 0 (mkQueue [3; 2] 1 2 false) = Ok ((2, None), mkQueue [3; 2] 1 2 false) /\
  exists e q',
    Push 0 4 (mkQueue [3; 2] 1 2 false) = Ok (e, q') /\
    Peek 0 q' = Ok ((2, None), q').
Proof.
  assert (H1 : inv (mkQueue [3; 2] 1 2 false)) by check_inv.
  assert (H2 : fits (mkQueue [3; 2] 1 2 false)) by check_fits.
  assert (H3 : Peek 0 (mkQueue [3; 2] 1 2 false)
               = Ok ((2, None), mkQueue [3; 2] 1 2 false)) by reflexivity.
  exact (conj H1 (conj H2 (conj H3 (push_keeps_front Z 0 _ 4 2 H1 H2 H3)))).
Defined.

(** A bounded queue of capacity 3 that holds one element takes two
    more. *)
Lemma bounded_room_witness :
  inv (mkQueue [1; 2; 0] 1 1 true) /\ fits (mkQueue [1; 2; 0] 1 1 true) /\
  exists q',
    pushes 0 [5; 6] (mkQueue [1; 2; 0] 1 1 true)
    = Ok ([RPush None; RPush None], q') /\
    front q' = 1 /\ cap (items q') = 3 /\
    Push 0 7 q' = Ok (Some ErrQueueFull, q').
Proof.
  assert (H1 : inv (mkQueue [1; 2; 0] 1 1 true)) by check_inv.
  assert (H2 : fits (mkQueue [1; 2; 0] 1 1 true)) by check_fits.
  exact (conj H1 (conj H2
    (bounded_room Z 0 _ [5; 6] 7 H1 H2 eq_refl eq_refl))).
Defined.

(** A bounded queue of capacity 2 used as a window, and the same calls
    on its unbounded twin. *)
Lemma bounded_unbounded_agree_witness :
  run 0 [OpPush 1; OpPop; OpPush 2; OpPush 3; OpPop] (mkQueue [0; 0] 0 0 true)
  = Ok ([RPush None; RPop 1 None; RPush None; RPush None; RPop 2 None],
        mkQueue [3; 2] 0 1 true) /\
  never_full [RPush None; RPop 1 None; RPush None; RPush None; RPop 2 None] /\
  run 0 [OpPush 1; OpPop; OpPush 2; OpPush 3; OpPop] (mkQueue [0; 0] 0 0 false)
  = Ok ([RPush None; RPop 1 None; RPush None; RPush None; RPop 2 None],
        mkQueue [3; 2] 0 1 false).
Proof.
  assert (H1 :
    run 0 [OpPush 1; OpPop; OpPush 2; OpPush 3; OpPop] (mkQueue [0; 0] 0 0 true)
    = Ok ([RPush None; RPop 1 None; RPush None; RPush None; RPop 2 None],
          mkQueue [3; 2] 0 1 true)) by reflexivity.
  assert (H2 : never_full
                 [RPush None; RPop 1 None; RPush None; RPush None; RPop 2 None])
    by (repeat constructor; discriminate).
  exact (conj H1 (conj H2
    (bounded_unbounded_agree Z 0 _ (mkQueue [0; 0] 0 0 true) _ _ eq_refl H1 H2))).
Defined.

(** Three pushes on a new queue of capacity 2 leave capacity 4. *)
Lemma growth_is_economical_witness :
  inv (mkQueue [0; 0] 0 0 false) /\
  pushes 0 [1; 2; 3] (mkQueue [0; 0] 0 0 false)
  = Ok ([RPush None; RPush None; RPush None], mkQueue [1; 2; 3; 0] 0 3 false) /\
  (cap [1; 2; 3; 0] = cap [0; 0] \/ cap [1; 2; 3; 0] <= 2 * (3 - 1)).
Proof.
  assert (H1 : inv (mkQueue [0; 0] 0 0 false)) by check_inv.
  assert (H2 : pushes 0 [1; 2; 3] (mkQueue [0; 0] 0 0 false)
               = Ok ([RPush None; RPush None; RPush None],
                     mkQueue [1; 2; 3; 0] 0 3 false)) by reflexivity.
  exact (conj H1 (conj H2
    (proj2 (growth_is_economical Z 0 [1; 2; 3] _ _ _ H1 H2)))).
Defined.

(** Four pushes on a wrapped queue of capacity 2 that holds 2. *)
Lemma unbounded_accepts_all_witness :
  inv (mkQueue [1; 2] 1 1 false) /\ fits (mkQueue [1; 2] 1 1 false) /\
  4 * (1 + 4) <= GoInt.max_int /\
  exists q',
    pushes 0 [3; 4; 5; 6] (mkQueue [1; 2] 1 1 false)
    = Ok ([RPush None; RPush None; RPush None; RPush None], q') /\
    contents q' = [2; 3; 4; 5; 6] /\
    length q' = 1 + 4 /\ bounded q' = false.
Proof.
  assert (H1 : inv (mkQueue [1; 2] 1 1 false)) by check_inv.
  assert (H2 : fits (mkQueue [1; 2] 1 1 false)) by check_fits.
  assert (H3 : 4 * (1 + 4) <= GoInt.max_int) by check_int.
  exact (conj H1 (conj H2 (conj H3
    (unbounded_accepts_all Z 0 [3; 4; 5; 6] _ H1 H2 eq_refl H3)))).
Defined.
